(** * LST and NDVI over the Atlanta metropolitan area

    A shallow embedding of the Earth Engine script
    [Image Direct Measurements- Atlanta/LST and NDVI Atlanta.js]:
    the scene filter, the two band derivations [addNdvi] and [addLST],
    the median composites and the per-region chart series (mean and
    Pearson correlation).

    Pixel values are rationals ([Q]); a masked pixel is [None].  A band is
    sampled at a nominal scale and a cell, the way Earth Engine evaluates an
    image at the scale the consumer asks for.  Calls that Earth Engine
    rejects (a band pattern that matches nothing, a reducer applied to the
    wrong number of bands) return [Err]. *)

From Stdlib Require Import List String Ascii Bool ZArith QArith Lia Lra Lqa.
From Stdlib Require Import Reals Qreals Sorted Permutation DecimalString DecimalNat Finite.
Import ListNotations.

Close Scope R_scope.
Close Scope Q_scope.
Open Scope string_scope.
Open Scope Z_scope.

(** ** Results of fallible calls *)

Inductive Error : Type :=
| BandNotFound (pattern : string)
| UnboundVariable (name : string)
| BandCountMismatch (expected got : nat).

Inductive result (A : Type) : Type :=
| Ok (a : A)
| Err (e : Error).

Arguments Ok {A} a.
Arguments Err {A} e.

Definition bind {A B : Type} (c : result A) (k : A -> result B) : result B :=
  match c with
  | Ok a => k a
  | Err e => Err e
  end.

Notation "x <- c ;; k" := (bind c (fun x => k))
  (at level 61, c at next level, right associativity).

Fixpoint mapM {A B : Type} (f : A -> result B) (l : list A) : result (list B) :=
  match l with
  | [] => Ok []
  | a :: l' =>
      b <- f a ;;
      bs <- mapM f l' ;;
      Ok (b :: bs)
  end.

(** ** Rasters, geometries and images *)

Definition Pixel : Type := (Z * Z)%type.

Definition pixel_eqb (p q : Pixel) : bool :=
  (fst p =? fst q) && (snd p =? snd q).

(** A band sampled at a nominal scale (metres) and a cell; [None] is a
    masked pixel. *)
Definition Raster : Type := Z -> Pixel -> option Q.

Definition Band : Type := (string * Raster)%type.

(** Geometries are opaque: the script only asks whether two of them
    intersect ([filterBounds]) and which cells of the grid at a given scale
    lie inside one ([clip], the region of a chart). *)
Class Geometry (G : Type) : Type := {
  intersects : G -> G -> bool;
  cells : G -> Z -> list Pixel
}.

Definition inside {G : Type} `{Geometry G} (g : G) (scale : Z) (p : Pixel) : bool :=
  existsb (pixel_eqb p) (cells g scale).

Record Image (G : Type) : Type := mkImage {
  bands : list Band;
  time_start : Z;          (* 'system:time_start', milliseconds since the epoch *)
  CLOUD_COVER : Q;
  footprint : G
}.

Arguments mkImage {G} bands time_start CLOUD_COVER footprint.
Arguments bands {G} i.
Arguments time_start {G} i.
Arguments CLOUD_COVER {G} i.
Arguments footprint {G} i.

Definition with_bands {G : Type} (img : Image G) (bs : list Band) : Image G :=
  mkImage bs (time_start img) (CLOUD_COVER img) (footprint img).

Definition band_names {G : Type} (img : Image G) : list string :=
  map fst (bands img).

Fixpoint find_band (name : string) (bs : list Band) : option Raster :=
  match bs with
  | [] => None
  | (n, r) :: bs' => if String.eqb n name then Some r else find_band name bs'
  end.

(** The value of a named band at a scale and a cell; a band the image does
    not have reads as masked. *)
Definition band_value (bs : list Band) (name : string) (scale : Z) (p : Pixel)
  : option Q :=
  match find_band name bs with
  | Some r => r scale p
  | None => None
  end.

Definition sample {G : Type} (img : Image G) (name : string) (scale : Z) (p : Pixel)
  : option Q :=
  band_value (bands img) name scale p.

(** ** Earth Engine image operations used by the script *)

Module EE.

Definition lift1 (f : Q -> Q) (r : Raster) : Raster :=
  fun scale p => option_map f (r scale p).

(** A binary operation is masked where either operand is. *)
Definition lift2 (f : Q -> Q -> Q) (r1 r2 : Raster) : Raster :=
  fun scale p =>
    match r1 scale p, r2 scale p with
    | Some a, Some b => Some (f a b)
    | _, _ => None
    end.

(** [ee.Image.divide]: "Divides the first value by the second, returning 0
    for division by 0". *)
Definition divide (a b : Q) : Q :=
  if Qeq_bool b 0 then 0%Q else (a / b)%Q.

(** [image.select(names)]: the named bands, in the order asked for. *)
Definition select {G : Type} (names : list string) (img : Image G) : result (Image G) :=
  bs <- mapM (fun n =>
                match find_band n (bands img) with
                | Some r => Ok (n, r)
                | None => Err (BandNotFound n)
                end) names ;;
  Ok (with_bands img bs).

Definition map_bands {G : Type} (f : Q -> Q) (img : Image G) : Image G :=
  with_bands img (List.map (fun b : Band => (fst b, lift1 f (snd b))) (bands img)).

Definition multiply {G : Type} (c : Q) (img : Image G) : Image G :=
  map_bands (fun v => v * c)%Q img.

Definition add {G : Type} (c : Q) (img : Image G) : Image G :=
  map_bands (fun v => v + c)%Q img.

Definition subtract {G : Type} (c : Q) (img : Image G) : Image G :=
  map_bands (fun v => v - c)%Q img.

(** [image.rename(names)]: as many names as the image has bands. *)
Definition rename {G : Type} (names : list string) (img : Image G) : result (Image G) :=
  if Nat.eqb (List.length names) (List.length (bands img))
  then Ok (with_bands img (combine names (List.map snd (bands img))))
  else Err (BandCountMismatch (List.length (bands img)) (List.length names)).

(** Per-pixel expressions over named single-band images. *)
Inductive Expr : Type :=
| Var (name : string)
| Sub (a b : Expr)
| Add (a b : Expr)
| Div (a b : Expr).

Fixpoint lookup_var {G : Type} (name : string) (env : list (string * Image G))
  : option (Image G) :=
  match env with
  | [] => None
  | (n, i) :: env' => if String.eqb n name then Some i else lookup_var name env'
  end.

(** The band a binary operation returns is named after its left operand. *)
Fixpoint eval {G : Type} (env : list (string * Image G)) (e : Expr) : result Band :=
  match e with
  | Var x =>
      match lookup_var x env with
      | Some i =>
          match bands i with
          | b :: _ => Ok b
          | [] => Err (BandCountMismatch 1 0)
          end
      | None => Err (UnboundVariable x)
      end
  | Sub a b =>
      x <- eval env a ;;
      y <- eval env b ;;
      Ok (fst x, lift2 Qminus (snd x) (snd y))
  | Add a b =>
      x <- eval env a ;;
      y <- eval env b ;;
      Ok (fst x, lift2 Qplus (snd x) (snd y))
  | Div a b =>
      x <- eval env a ;;
      y <- eval env b ;;
      Ok (fst x, lift2 divide (snd x) (snd y))
  end.

Definition expression {G : Type} (img : Image G) (e : Expr)
           (env : list (string * Image G)) : result (Image G) :=
  b <- eval env e ;;
  Ok (with_bands img [b]).

(** [addBands] does not overwrite: a band whose name is taken is added
    under the first free name among [name_1], [name_2], ... *)
Definition decimal (k : nat) : string :=
  NilZero.string_of_uint (Nat.to_uint k).

Definition name_taken (n : string) (used : list string) : bool :=
  existsb (String.eqb n) used.

Fixpoint freshen (fuel k : nat) (used : list string) (base : string) : string :=
  let cand := base ++ "_" ++ decimal k in
  match fuel with
  | O => cand
  | S fuel' =>
      if name_taken cand used then freshen fuel' (S k) used base else cand
  end.

Definition unique_name (used : list string) (base : string) : string :=
  if name_taken base used then freshen (List.length used) 1 used base else base.

Definition add_band (bs : list Band) (b : Band) : list Band :=
  bs ++ [(unique_name (List.map fst bs) (fst b), snd b)].

(** [dst.addBands(src)]: every band of [dst], then the bands of [src];
    metadata and footprint are those of [dst]. *)
Definition addBands {G : Type} (dst src : Image G) : Image G :=
  with_bands dst (fold_left add_band (bands src) (bands dst)).

(** *** Collections *)

(** Days between 1970-01-01 and a calendar date (proleptic Gregorian). *)
Definition days_from_civil (y m d : Z) : Z :=
  let y' := if m <=? 2 then y - 1 else y in
  let era := y' / 400 in
  let yoe := y' - era * 400 in
  let mp := (m + 9) mod 12 in
  let doy := (153 * mp + 2) / 5 + d - 1 in
  let doe := yoe * 365 + yoe / 4 - yoe / 100 + doy in
  era * 146097 + doe - 719468.

(** A date string ['YYYY-MM-DD'] read as midnight UTC, in milliseconds. *)
Definition Date (y m d : Z) : Z := days_from_civil y m d * 86400000.

Definition Qlt_bool (x y : Q) : bool :=
  Qnum x * QDen y <? Qnum y * QDen x.

(** [collection.filterBounds(geometry)]: the images whose footprint
    intersects the geometry. *)
Definition filterBounds {G : Type} `{Geometry G} (g : G) (coll : list (Image G))
  : list (Image G) :=
  filter (fun i => intersects (footprint i) g) coll.

(** [collection.filterDate(start, end)]: start inclusive, end exclusive,
    on ['system:time_start']. *)
Definition filterDate {G : Type} (start stop : Z) (coll : list (Image G))
  : list (Image G) :=
  filter (fun i => (start <=? time_start i) && (time_start i <? stop)) coll.

(** The numeric properties a filter can name. *)
Definition property {G : Type} (name : string) (i : Image G) : option Q :=
  if String.eqb name "CLOUD_COVER" then Some (CLOUD_COVER i)
  else if String.eqb name "system:time_start" then Some (inject_Z (time_start i))
  else None.

(** [ee.Filter.lt(name, value)]: the property exists and is less than
    the value. *)
Definition lt {G : Type} (name : string) (value : Q) (i : Image G) : bool :=
  match property name i with
  | Some v => Qlt_bool v value
  | None => false
  end.

(** [collection.map(f)] and [collection.select(names)]: a call that fails
    on one image fails the collection. *)
Definition map {G : Type} (f : Image G -> result (Image G)) (coll : list (Image G))
  : result (list (Image G)) :=
  mapM f coll.

Definition selectAll {G : Type} (names : list string) (coll : list (Image G))
  : result (list (Image G)) :=
  mapM (select names) coll.

(** *** Reducers *)

Fixpoint valid {A : Type} (l : list (option A)) : list A :=
  match l with
  | [] => []
  | Some a :: l' => a :: valid l'
  | None :: l' => valid l'
  end.

Definition Qsum (l : list Q) : Q := fold_right Qplus 0%Q l.

Definition count (l : list Q) : Q := inject_Z (Z.of_nat (List.length l)).

Definition mean_Q (l : list Q) : Q := (Qsum l / count l)%Q.

(** Modelled from the spec: [ee.Reducer.mean()], the unweighted mean of
    the valid values; no value when there is none (section 4.4). *)
Definition mean_of (vs : list Q) : option Q :=
  match vs with
  | [] => None
  | _ => Some (mean_Q vs)
  end.

Fixpoint insert (x : Q) (l : list Q) : list Q :=
  match l with
  | [] => [x]
  | y :: l' => if Qle_bool x y then x :: l else y :: insert x l'
  end.

Definition sort (l : list Q) : list Q := fold_right insert [] l.

(** Modelled from the spec: [ee.Reducer.median()], the middle order
    statistic, or the mean of the two central ones for an even number of
    values; no value when there is none (section 4.3). *)
Definition median_of (vs : list Q) : option Q :=
  let s := sort vs in
  let n := List.length s in
  match n with
  | O => None
  | _ =>
      if Nat.even n
      then Some ((nth (n / 2 - 1) s 0 + nth (n / 2) s 0) / 2)%Q
      else Some (nth (n / 2) s 0%Q)
  end.

Definition both_valid (l : list (option Q * option Q)) : list (Q * Q) :=
  valid (List.map (fun xy => match xy with
                             | (Some x, Some y) => Some (x, y)
                             | _ => None
                             end) l).

(** The sum of the products of the deviations of two coordinates from
    their means. *)
Definition dev (f g : Q * Q -> Q) (ps : list (Q * Q)) : Q :=
  Qsum (List.map (fun p => (f p - mean_Q (List.map f ps))
                           * (g p - mean_Q (List.map g ps)))%Q ps).

Definition Sxy (ps : list (Q * Q)) : Q := dev fst snd ps.

Definition Sxx (ps : list (Q * Q)) : Q := dev fst fst ps.

Definition Syy (ps : list (Q * Q)) : Q := dev snd snd ps.

(** Modelled from the spec: the correlation output of
    [ee.Reducer.pearsonsCorrelation()],
    r = S(x - mx)(y - my) / sqrt (S(x - mx)^2 * S(y - my)^2) over the valid
    pairs; no value for fewer than 2 pairs or zero variance in either
    input (section 4.5).  The p-value output is left out. *)
Definition pearson (ps : list (Q * Q)) : option R :=
  if (Nat.ltb (List.length ps) 2) || Qeq_bool (Sxx ps) 0 || Qeq_bool (Syy ps) 0
  then None
  else Some (Q2R (Sxy ps) / sqrt (Q2R (Sxx ps * Syy ps)))%R.

Inductive Reducer : Type -> Type :=
| mean : Reducer Q
| pearsonsCorrelation : Reducer R.

(** [image.reduceRegion(reducer, region, scale)]: a one-input reducer is
    applied to each band over the cells of the region at the scale; the
    two-input correlation takes the two bands of the image as x and y. *)
Definition reduceRegion {G : Type} `{Geometry G} {V : Type} (reducer : Reducer V)
           (image : Image G) (region : G) (scale : Z)
  : result (list (string * option V)) :=
  let cs := cells region scale in
  match reducer in Reducer V return result (list (string * option V)) with
  | mean =>
      Ok (List.map (fun b : Band =>
                      (fst b, mean_of (valid (List.map (snd b scale) cs))))
                   (bands image))
  | pearsonsCorrelation =>
      match bands image with
      | [x; y] =>
          Ok [("correlation",
               pearson (both_valid
                          (List.map (fun p => (snd x scale p, snd y scale p)) cs)))]
      | bs => Err (BandCountMismatch 2 (List.length bs))
      end
  end.

(** Modelled from the spec: [ui.Chart.image.series], one row per image of
    the collection, in collection order: the image's
    ['system:time_start'] and the reducer's outputs over the region, a
    missing output staying in its row as no-data (section 4.4). *)
Definition series {G : Type} `{Geometry G} {V : Type} (imageCollection : list (Image G))
           (region : G) (reducer : Reducer V) (scale : Z)
  : result (list (Z * list (string * option V))) :=
  mapM (fun image =>
          row <- reduceRegion reducer image region scale ;;
          Ok (time_start image, row))
       imageCollection.

(** *** Composites *)

(** Modelled from the spec: [collection.median()], band by band (the
    bands of the first image), pixel by pixel, over the images whose
    pixel is valid (section 4.3). *)
Definition median {G : Type} (coll : list (Image G)) : list Band :=
  match coll with
  | [] => []
  | first :: _ =>
      List.map (fun n =>
                  (n, (fun scale p =>
                         median_of (valid (List.map (fun i => sample i n scale p) coll)))
                      : Raster))
               (band_names first)
  end.

(** [image.clip(geometry)]: pixels outside the geometry are masked. *)
Definition clip {G : Type} `{Geometry G} (bs : list Band) (g : G) : list Band :=
  List.map (fun b : Band =>
              (fst b, (fun scale p => if inside g scale p then snd b scale p else None)
                      : Raster))
           bs.

End EE.

(** ** The two band derivations *)

Section Derivation.

Context {G : Type}.

(** [addNdvi], lines 38-58: the expression
    ['(NIR - RED) / (NIR + RED)'] over [SR_B5] and [SR_B4], times 100,
    renamed [NDVI] and added to the image. *)
Definition addNdvi (image : Image G) : result (Image G) :=
  nir <- EE.select ["SR_B5"] image ;;
  red <- EE.select ["SR_B4"] image ;;
  e <- EE.expression image
         (EE.Div (EE.Sub (EE.Var "NIR") (EE.Var "RED"))
                 (EE.Add (EE.Var "NIR") (EE.Var "RED")))
         [("NIR", nir); ("RED", red)] ;;
  ndvi <- EE.rename ["NDVI"] (EE.multiply 100 e) ;;
  Ok (EE.addBands image ndvi).

(** [addLST], lines 61-82: [ST_B10] times 0.00341802, plus 149.0,
    minus 273, renamed [LST] and added to the image. *)
Definition addLST (image : Image G) : result (Image G) :=
  t <- EE.select ["ST_B10"] image ;;
  lst <- EE.rename ["LST"]
           (EE.subtract 273 (EE.add 149.0 (EE.multiply 0.00341802 t))) ;;
  Ok (EE.addBands image lst).

End Derivation.

(** ** The pipeline *)

Section Script.

Context {G : Type} `{Geometry G}.

(** The county boundary picked from the GAUL level-2 table (lines 14-26).
    The land-cover zones ([urban], [resArea], [highways], ...) are free
    names of the script; they enter the charts below as [region]. *)
Variable atlGeom : G.

(** The Landsat 8 Collection 2 Level 2 archive,
    [ee.ImageCollection('LANDSAT/LC08/C02/T1_L2')]. *)
Variable archive : list (Image G).

(** Lines 85-88: [filterBounds], [filterDate], then
    [filter(ee.Filter.lt('CLOUD_COVER', 15))]. *)
Definition filtered : list (Image G) :=
  filter (EE.lt "CLOUD_COVER" 15)
    (EE.filterDate (EE.Date 2014 1 1) (EE.Date 2023 12 31)
       (EE.filterBounds atlGeom archive)).

(** Lines 85-90. *)
Definition landsatCollection : result (list (Image G)) :=
  c <- EE.map addNdvi filtered ;;
  EE.map addLST c.

(** Lines 98-102: the median composites, clipped to the county. *)
Definition composite (names : list string) : result (list Band) :=
  c <- landsatCollection ;;
  s <- EE.selectAll names c ;;
  Ok (EE.clip (EE.median s) atlGeom).

Definition trueColorImage : result (list Band) :=
  composite ["SR_B4"; "SR_B3"; "SR_B2"].

Definition ndviImage : result (list Band) := composite ["NDVI"].

Definition lstImage : result (list Band) := composite ["LST"].

(** The trend chart of a region (lines 148-156, and the same call for each
    zone): the mean of NDVI and LST at scale 500. *)
Definition trend (region : G) : result (list (Z * list (string * option Q))) :=
  c <- landsatCollection ;;
  s <- EE.selectAll ["NDVI"; "LST"] c ;;
  EE.series s region EE.mean 500.

(** The correlation chart of a region (lines 172-176, and the same call
    for each zone): Pearson's correlation of LST and NDVI at scale 30. *)
Definition correlation (region : G) : result (list (Z * list (string * option R))) :=
  c <- landsatCollection ;;
  s <- EE.selectAll ["LST"; "NDVI"] c ;;
  EE.series s region EE.pearsonsCorrelation 30.

Definition atlTrnd := trend atlGeom.

Definition correlChart := correlation atlGeom.

End Script.

(** ** The pipeline as the specification words it *)

Module Configured.

(** Modelled from the spec: the configuration surface of section 6 (date
    interval, cloud-cover threshold, band-name mapping, radiometric
    constants, analysis resolutions, NDVI scale factor) and the pipeline of
    sections 4.1-4.5 reading every one of these values from it. *)
Record Config : Type := mkConfig {
  startDate : Z;
  endDate : Z;
  maxCloudCover : Q;
  nirBand : string;
  redBand : string;
  thermalBand : string;
  radiometricScale : Q;
  radiometricOffset : Q;
  kelvinOffset : Q;
  ndviScale : Q;
  meanResolution : Z;
  correlationResolution : Z
}.

Section Pipeline.

Context {G : Type} `{Geometry G}.
Variable cfg : Config.
Variable studyArea : G.
Variable archive : list (Image G).

Definition addNdvi (image : Image G) : result (Image G) :=
  nir <- EE.select [nirBand cfg] image ;;
  red <- EE.select [redBand cfg] image ;;
  e <- EE.expression image
         (EE.Div (EE.Sub (EE.Var "NIR") (EE.Var "RED"))
                 (EE.Add (EE.Var "NIR") (EE.Var "RED")))
         [("NIR", nir); ("RED", red)] ;;
  ndvi <- EE.rename ["NDVI"] (EE.multiply (ndviScale cfg) e) ;;
  Ok (EE.addBands image ndvi).

Definition addLST (image : Image G) : result (Image G) :=
  t <- EE.select [thermalBand cfg] image ;;
  lst <- EE.rename ["LST"]
           (EE.subtract (kelvinOffset cfg)
              (EE.add (radiometricOffset cfg)
                 (EE.multiply (radiometricScale cfg) t))) ;;
  Ok (EE.addBands image lst).

Definition filtered : list (Image G) :=
  filter (EE.lt "CLOUD_COVER" (maxCloudCover cfg))
    (EE.filterDate (startDate cfg) (endDate cfg)
       (EE.filterBounds studyArea archive)).

Definition landsatCollection : result (list (Image G)) :=
  c <- EE.map addNdvi filtered ;;
  EE.map addLST c.

Definition composite (names : list string) : result (list Band) :=
  c <- landsatCollection ;;
  s <- EE.selectAll names c ;;
  Ok (EE.clip (EE.median s) studyArea).

Definition trend (region : G) : result (list (Z * list (string * option Q))) :=
  c <- landsatCollection ;;
  s <- EE.selectAll ["NDVI"; "LST"] c ;;
  EE.series s region EE.mean (meanResolution cfg).

Definition correlation (region : G) : result (list (Z * list (string * option R))) :=
  c <- landsatCollection ;;
  s <- EE.selectAll ["LST"; "NDVI"] c ;;
  EE.series s region EE.pearsonsCorrelation (correlationResolution cfg).

End Pipeline.

(** The values the script writes in place. *)
Definition reference : Config :=
  mkConfig (EE.Date 2014 1 1) (EE.Date 2023 12 31) 15
           "SR_B5" "SR_B4" "ST_B10"
           0.00341802 149.0 273 100 500 30.

End Configured.


(** ** Notions used in the statements *)

Open Scope list_scope.

(** The rasters [addNdvi] and [addLST] append, read off their bodies. *)
Definition ndvi_of (nir red : Raster) : Raster :=
  EE.lift1 (fun v => v * 100)%Q
    (EE.lift2 EE.divide (EE.lift2 Qminus nir red) (EE.lift2 Qplus nir red)).

Definition lst_of (t : Raster) : Raster :=
  EE.lift1 (fun v => v - 273)%Q
    (EE.lift1 (fun v => v + 149.0)%Q (EE.lift1 (fun v => v * 0.00341802)%Q t)).

(** A collection in ascending order of capture time. *)
Definition ascending {G : Type} (coll : list (Image G)) : Prop :=
  StronglySorted (fun a b => time_start a <= time_start b) coll.

(** The valid pixel pairs of two bands of a scene over the cells of a
    region at a scale. *)
Definition pixel_pairs {G : Type} `{Geometry G} (image : Image G) (x y : string)
           (region : G) (scale : Z) : list (Q * Q) :=
  EE.both_valid
    (map (fun p => (sample image x scale p, sample image y scale p))
         (cells region scale)).

(** The valid values of a band of a scene over the cells of a region. *)
Definition region_values {G : Type} `{Geometry G} (image : Image G) (name : string)
           (region : G) (scale : Z) : list Q :=
  EE.valid (map (sample image name scale) (cells region scale)).

(** The valid values of a band at one pixel across a collection. *)
Definition pixel_stack {G : Type} (coll : list (Image G)) (name : string)
           (scale : Z) (p : Pixel) : list Q :=
  EE.valid (map (fun i => sample i name scale p) coll).

(** The image [select] returns when every name is found. *)
Definition picked {G : Type} (names : list string) (image : Image G) : Image G :=
  with_bands image
    (map (fun n => (n, (fun scale p => sample image n scale p) : Raster)) names).

(** A raw scene and what the two derivations make of it. *)
Definition derived {G : Type} (raw out : Image G) : Prop :=
  exists mid, addNdvi raw = Ok mid /\ addLST mid = Ok out.

Definition first_char (s : string) : option ascii :=
  match s with
  | EmptyString => None
  | String c _ => Some c
  end.

Definition candidate (base : string) (k : nat) : string :=
  (base ++ "_" ++ EE.decimal k)%string.

(** ** A small concrete scene, for examples *)

Module Example.

(** A geometry given by its cells, the same at every scale. *)
#[global] Instance cell_geometry : Geometry (list Pixel) := {
  intersects := fun a b => existsb (fun p => existsb (pixel_eqb p) b) a;
  cells := fun g _ => g
}.

Definition area : list Pixel := [(0, 0); (0, 1); (0, 2)].

(** A region that no scene covers. *)
Definition elsewhere : list Pixel := [(5, 5)].

(** A band whose value at the cell [(0, c)] of [area] is [f c], at every
    scale, and which is masked everywhere else. *)
Definition column (f : Z -> Q) : Raster :=
  fun _ p => if inside area 0 p then Some (f (snd p)) else None.

Definition scene (nir red thermal : Z -> Q) (t : Z) (cloud : Q) : Image (list Pixel) :=
  mkImage [("SR_B4", column red); ("SR_B5", column nir); ("ST_B10", column thermal)]
          t cloud area.

(** A scene of June 2015 with 3% cloud cover: greener and cooler towards
    the cell [(0, 0)]. *)
Definition june : Image (list Pixel) :=
  scene (fun c => inject_Z (9000 - 3000 * c)) (fun c => inject_Z (3000 + 3000 * c))
        (fun c => inject_Z (30000 + 1000 * c)) (EE.Date 2015 6 1) 3.

(** A scene whose reflectances are both 0. *)
Definition dark : Image (list Pixel) :=
  scene (fun _ => 0%Q) (fun _ => 0%Q) (fun _ => 30000%Q) (EE.Date 2016 6 1) 3.

(** A scene with 20% cloud cover. *)
Definition hazy : Image (list Pixel) :=
  scene (fun _ => 9000%Q) (fun _ => 8000%Q) (fun _ => 30000%Q) (EE.Date 2017 6 1) 20.

(** The script's values, but with cloud cover allowed up to 50%. *)
Definition lenient : Configured.Config :=
  Configured.mkConfig (EE.Date 2014 1 1) (EE.Date 2023 12 31) 50
                      "SR_B5" "SR_B4" "ST_B10"
                      0.00341802 149.0 273 100 500 30.

(** What the two derivations make of a scene built by [scene]. *)
Definition with_derived (i : Image (list Pixel)) (nir red thermal : Z -> Q)
  : Image (list Pixel) :=
  with_bands i
    (bands i ++ [("NDVI", ndvi_of (column nir) (column red));
                 ("LST", lst_of (column thermal))]).

Definition june' : Image (list Pixel) :=
  with_derived june (fun c => inject_Z (9000 - 3000 * c))
               (fun c => inject_Z (3000 + 3000 * c))
               (fun c => inject_Z (30000 + 1000 * c)).

Definition dark' : Image (list Pixel) :=
  with_derived dark (fun _ => 0%Q) (fun _ => 0%Q) (fun _ => 30000%Q).

(** The NDVI composite of [june] and [dark] over [area]. *)
Definition ndvi_composite : list Band :=
  EE.clip (EE.median (map (picked ["NDVI"]) [june'; dark'])) area.

End Example.

(** ** The county boundary *)

Module Boundary.

(** A row of the GAUL level-2 table
    ([ee.FeatureCollection("FAO/GAUL_SIMPLIFIED_500m/2015/level2")]): the
    two name columns the script filters on, and the geometry. *)
Record Feature (G : Type) : Type := mkFeature {
  ADM1_NAME : string;
  ADM2_NAME : string;
  geometry : G
}.

Arguments mkFeature {G} ADM1_NAME ADM2_NAME geometry.
Arguments ADM1_NAME {G} f.
Arguments ADM2_NAME {G} f.
Arguments geometry {G} f.

Definition property {G : Type} (name : string) (f : Feature G) : option string :=
  if String.eqb name "ADM1_NAME" then Some (ADM1_NAME f)
  else if String.eqb name "ADM2_NAME" then Some (ADM2_NAME f)
  else None.

(** [ee.Filter.eq(name, value)]: the property exists and equals the value. *)
Definition Filter_eq {G : Type} (name value : string) (f : Feature G) : bool :=
  match property name f with
  | Some v => String.eqb v value
  | None => false
  end.

(** Line 17: the number of districts called Fulton,
    [gbl2.filter(ee.Filter.eq('ADM2_NAME','Fulton')).size()]. *)
Definition fultons {G : Type} (gbl2 : list (Feature G)) : nat :=
  List.length (filter (Filter_eq "ADM2_NAME" "Fulton") gbl2).

(** Lines 20-26: the geometry of the first district of Georgia called
    Fulton; [first()] of an empty collection is null, and there is then no
    geometry. *)
Definition atlGeom {G : Type} (gbl2 : list (Feature G)) : option G :=
  option_map geometry
    (hd_error (filter (Filter_eq "ADM2_NAME" "Fulton")
                      (filter (Filter_eq "ADM1_NAME" "Georgia") gbl2))).

End Boundary.

(** ** More notions used in the statements *)

(** A row of the table that the lookup accepts. *)
Definition in_georgia_fulton {G : Type} (f : Boundary.Feature G) : Prop :=
  Boundary.ADM1_NAME f = "Georgia" /\ Boundary.ADM2_NAME f = "Fulton".

(** Values of two pixels that are both masked, or both valid and equal as
    rationals. *)
Definition value_eq (a b : option Q) : Prop :=
  match a, b with
  | Some x, Some y => (x == y)%Q
  | None, None => True
  | _, _ => False
  end.

(** The values the two derivations give a pixel, read off their bodies. *)
Definition ndvi_value (nir red : Q) : Q :=
  (EE.divide (nir - red) (nir + red) * 100)%Q.

Definition lst_value (d : Q) : Q := (d * 0.00341802 + 149.0 - 273)%Q.

(** A scene has the three raw bands the derivations read. *)
Definition has_raw_bands {G : Type} (image : Image G) : Prop :=
  find_band "SR_B5" (bands image) <> None
  /\ find_band "SR_B4" (bands image) <> None
  /\ find_band "ST_B10" (bands image) <> None.

(** The tests of the three filters of the script, on one scene. *)
Definition passes {G : Type} `{Geometry G} (g : G) (i : Image G) : bool :=
  intersects (footprint i) g
  && ((EE.Date 2014 1 1 <=? time_start i) && (time_start i <? EE.Date 2023 12 31)
      && EE.lt "CLOUD_COVER" 15 i).

Module Sample.

(** A table with two districts called Fulton, the second one in Georgia. *)
Definition table : list (Boundary.Feature (list Pixel)) :=
  [Boundary.mkFeature "Kentucky" "Fulton" Example.elsewhere;
   Boundary.mkFeature "Georgia" "Cobb" Example.elsewhere;
   Boundary.mkFeature "Georgia" "Fulton" Example.area].


(** The June scene with NIR and RED exchanged. *)
Definition june_swapped : Image (list Pixel) :=
  Example.scene (fun c => inject_Z (3000 + 3000 * c))
                (fun c => inject_Z (9000 - 3000 * c))
                (fun c => inject_Z (30000 + 1000 * c)) (EE.Date 2015 6 1) 3.

(** A scene without a thermal band, taken on a cloudy day. *)
Definition cloudy_no_thermal : Image (list Pixel) :=
  mkImage [("SR_B4", Example.column (fun _ => 8000%Q));
           ("SR_B5", Example.column (fun _ => 9000%Q))]
          (EE.Date 2018 6 1) 60 Example.area.


End Sample.

(** * Properties *)

(** ** What the derivations compute *)

Section DerivationFacts.

Context {G : Type}.
Implicit Types image : Image G.

Lemma addNdvi_unfold image :
  addNdvi image =
  match find_band "SR_B5" (bands image) with
  | None => Err (BandNotFound "SR_B5")
  | Some nir =>
      match find_band "SR_B4" (bands image) with
      | None => Err (BandNotFound "SR_B4")
      | Some red =>
          Ok (with_bands image
                (bands image ++ [(EE.unique_name (band_names image) "NDVI",
                                  ndvi_of nir red)]))
      end
  end.
Proof.
  unfold addNdvi, EE.select. cbn.
  destruct (find_band "SR_B5" (bands image)) as [nir|]; cbn; [|reflexivity].
  destruct (find_band "SR_B4" (bands image)) as [red|]; cbn; reflexivity.
Qed.

Lemma addLST_unfold image :
  addLST image =
  match find_band "ST_B10" (bands image) with
  | None => Err (BandNotFound "ST_B10")
  | Some t =>
      Ok (with_bands image
            (bands image ++ [(EE.unique_name (band_names image) "LST", lst_of t)]))
  end.
Proof.
  unfold addLST, EE.select. cbn.
  destruct (find_band "ST_B10" (bands image)) as [t|]; cbn; reflexivity.
Qed.

Lemma find_band_app name bs bs' r :
  find_band name bs = Some r -> find_band name (bs ++ bs') = Some r.
Proof.
  induction bs as [|[n x] bs IH]; cbn; [discriminate|].
  destruct (String.eqb n name); auto.
Qed.

Lemma find_band_app_none_or name bs bs' :
  find_band name (bs ++ bs') =
  match find_band name bs with
  | Some r => Some r
  | None => find_band name bs'
  end.
Proof.
  induction bs as [|[n x] bs IH]; cbn; [reflexivity|].
  destruct (String.eqb n name); auto.
Qed.

Lemma find_band_app_none name bs bs' :
  find_band name bs = None -> find_band name (bs ++ bs') = find_band name bs'.
Proof.
  induction bs as [|[n x] bs IH]; cbn; [reflexivity|].
  destruct (String.eqb n name); [discriminate|auto].
Qed.

Lemma addNdvi_appends (i i' : Image G) :
  addNdvi i = Ok i' ->
  (exists r, bands i' = bands i ++ [(EE.unique_name (band_names i) "NDVI", r)])
  /\ time_start i' = time_start i
  /\ CLOUD_COVER i' = CLOUD_COVER i /\ footprint i' = footprint i.
Proof.
  rewrite addNdvi_unfold.
  destruct (find_band "SR_B5" (bands i)); [|discriminate].
  destruct (find_band "SR_B4" (bands i)); [|discriminate].
  intros [= <-]. cbn. eauto.
Qed.

Lemma addLST_appends (i i' : Image G) :
  addLST i = Ok i' ->
  (exists r, bands i' = bands i ++ [(EE.unique_name (band_names i) "LST", r)])
  /\ time_start i' = time_start i
  /\ CLOUD_COVER i' = CLOUD_COVER i /\ footprint i' = footprint i.
Proof.
  rewrite addLST_unfold.
  destruct (find_band "ST_B10" (bands i)); [|discriminate].
  intros [= <-]. cbn. eauto.
Qed.

End DerivationFacts.

Section DerivedBands.

Context {G : Type}.
Implicit Types image : Image G.

Lemma name_taken_find name (bs : list Band) :
  find_band name bs = None -> EE.name_taken name (map fst bs) = false.
Proof.
  unfold EE.name_taken.
  induction bs as [|[n x] bs IH]; cbn; [reflexivity|].
  rewrite (String.eqb_sym name n).
  destruct (String.eqb n name); [discriminate|auto].
Qed.

Lemma find_band_last name (bs : list Band) r :
  find_band name bs = None -> find_band name (bs ++ [(name, r)]) = Some r.
Proof.
  intros Hn. rewrite find_band_app_none by exact Hn.
  cbn. now rewrite String.eqb_refl.
Qed.

(** C4: for a scene with a thermal band, [addLST] appends a band whose
    value at every pixel with raw thermal number [d] is
    [d * 0.00341802 + 149.0 - 273] (273, not 273.15); where the scene has
    no band called LST the new band is read under that name; and at
    [d = 30000] the value is -21.4594. *)
Theorem addLST_celsius image t :
  find_band "ST_B10" (bands image) = Some t ->
  exists lst,
    addLST image =
      Ok (with_bands image
            (bands image ++ [(EE.unique_name (band_names image) "LST", lst)]))
    /\ (forall scale p d,
           t scale p = Some d ->
           lst scale p = Some (d * 0.00341802 + 149.0 - 273)%Q)
    /\ (forall image' scale p d,
           find_band "LST" (bands image) = None ->
           addLST image = Ok image' ->
           t scale p = Some d ->
           sample image' "LST" scale p = Some (d * 0.00341802 + 149.0 - 273)%Q)
    /\ (forall scale p,
           t scale p = Some 30000%Q ->
           exists v, lst scale p = Some v /\ (v == -21.4594)%Q).
Proof.
  intros Ht. exists (lst_of t).
  assert (Hv : forall scale p d, t scale p = Some d ->
               lst_of t scale p = Some (d * 0.00341802 + 149.0 - 273)%Q).
  { intros scale p d Hd. unfold lst_of, EE.lift1. now rewrite Hd. }
  repeat split.
  - rewrite addLST_unfold, Ht. reflexivity.
  - exact Hv.
  - intros image' scale p d Hfree Hrun Hd.
    rewrite addLST_unfold, Ht in Hrun. injection Hrun as <-.
    unfold sample, band_value, EE.unique_name, band_names. cbn.
    rewrite (name_taken_find _ _ Hfree).
    rewrite (find_band_last _ _ _ Hfree). now apply Hv.
  - intros scale p Hd. eexists. split; [apply Hv, Hd|]. reflexivity.
Qed.

(** C3, as the script computes it: for a scene with both reflectance
    bands, [addNdvi] appends a band that is masked exactly where NIR or RED
    is masked; elsewhere it carries [(NIR - RED) / (NIR + RED) * 100] when
    [NIR + RED] is not 0, which is 0 when [NIR = RED <> 0]; and where
    [NIR + RED = 0] it carries the value 0 (the quotient by zero is 0),
    not a no-data marker. *)
Theorem addNdvi_value image nir red :
  find_band "SR_B5" (bands image) = Some nir ->
  find_band "SR_B4" (bands image) = Some red ->
  exists ndvi,
    addNdvi image =
      Ok (with_bands image
            (bands image ++ [(EE.unique_name (band_names image) "NDVI", ndvi)]))
    /\ forall scale p,
         match nir scale p, red scale p with
         | Some n, Some r =>
             exists v, ndvi scale p = Some v
               /\ (~ (n + r == 0)%Q -> (v == (n - r) / (n + r) * 100)%Q)
               /\ ((n == r)%Q -> ~ (n == 0)%Q -> (v == 0)%Q)
               /\ ((n + r == 0)%Q -> (v == 0)%Q)
         | _, _ => ndvi scale p = None
         end.
Proof.
  intros Hn Hr. exists (ndvi_of nir red). split.
  - rewrite addNdvi_unfold, Hn, Hr. reflexivity.
  - intros scale p. unfold ndvi_of, EE.lift1, EE.lift2.
    destruct (nir scale p) as [n|]; [|reflexivity].
    destruct (red scale p) as [r|]; [|reflexivity].
    cbn. eexists. split; [reflexivity|].
    unfold EE.divide.
    destruct (Qeq_bool (n + r) 0) eqn:Hz.
    + apply Qeq_bool_iff in Hz. split; [|split].
      * intros Hnz. contradiction.
      * intros _ _. ring.
      * intros _. ring.
    + apply Qeq_bool_neq in Hz. split; [|split].
      * intros _. reflexivity.
      * intros Heq _.
        assert (Hd : (n - r == 0)%Q) by (rewrite Heq; ring).
        unfold Qdiv. rewrite Hd. ring.
      * intros Hzero. contradiction.
Qed.

(** C8: each derivation, and the two in sequence, only append: the bands
    of the input are a prefix of the bands of the output, every band of
    the input is found under its name with the same raster, and the
    capture time, the cloud cover and the footprint are unchanged. *)
Theorem derivation_frame image image' :
  addNdvi image = Ok image'
  \/ addLST image = Ok image'
  \/ (exists mid, addNdvi image = Ok mid /\ addLST mid = Ok image') ->
  (exists added, bands image' = (bands image ++ added)%list)
  /\ (forall name r,
         find_band name (bands image) = Some r ->
         find_band name (bands image') = Some r)
  /\ time_start image' = time_start image
  /\ CLOUD_COVER image' = CLOUD_COVER image
  /\ footprint image' = footprint image.
Proof.
  intros H.
  assert (Hpre : exists added,
             bands image' = (bands image ++ added)%list
             /\ time_start image' = time_start image
             /\ CLOUD_COVER image' = CLOUD_COVER image
             /\ footprint image' = footprint image).
  { destruct H as [H|[H|[mid [H1 H2]]]].
    - destruct (addNdvi_appends _ _ H) as [[b Hb] ?]. eexists. split; [exact Hb|tauto].
    - destruct (addLST_appends _ _ H) as [[b Hb] ?]. eexists. split; [exact Hb|tauto].
    - destruct (addNdvi_appends _ _ H1) as [[b1 Hb1] (T1 & C1 & F1)].
      destruct (addLST_appends _ _ H2) as [[b2 Hb2] (T2 & C2 & F2)].
      eexists. rewrite Hb2, Hb1, <- app_assoc.
      split; [reflexivity|]. repeat split; congruence. }
  destruct Hpre as [added (Hb & Ht & Hc & Hf)].
  repeat split; try assumption.
  - now exists added.
  - intros name r Hfind. rewrite Hb. now apply find_band_app.
Qed.

End DerivedBands.

(** ** Names given by [addBands] *)

Section FreshNames.

Lemma eqb_first_char a b :
  first_char a <> first_char b -> String.eqb a b = false.
Proof.
  intros Hne. apply String.eqb_neq. intros ->. now apply Hne.
Qed.

Lemma freshen_first_char fuel k used c s :
  first_char (EE.freshen fuel k used (String c s)) = Some c.
Proof.
  revert k. induction fuel as [|fuel IH]; intros k; cbn; [reflexivity|].
  destruct (EE.name_taken _ used); [apply IH|reflexivity].
Qed.

Lemma unique_name_first_char used c s :
  first_char (EE.unique_name used (String c s)) = Some c.
Proof.
  unfold EE.unique_name.
  destruct (EE.name_taken _ used); [apply freshen_first_char|reflexivity].
Qed.

Lemma name_taken_app n used x :
  EE.name_taken n (used ++ [x]) = EE.name_taken n used || String.eqb n x.
Proof.
  unfold EE.name_taken. rewrite existsb_app. cbn. now rewrite orb_false_r.
Qed.

Lemma append_inj_l (base a b : string) :
  (base ++ a)%string = (base ++ b)%string -> a = b.
Proof.
  induction base as [|c base IH]; cbn; [auto|].
  intros [= E]. auto.
Qed.

Lemma decimal_inj k k' : EE.decimal k = EE.decimal k' -> k = k'.
Proof.
  unfold EE.decimal. intros E.
  assert (Hnn : forall n, Nat.to_uint n <> Decimal.Nil).
  { intros n Hn.
    pose proof (DecimalNat.Unsigned.of_to n) as Hof. rewrite Hn in Hof.
    cbn in Hof. subst n. discriminate Hn. }
  apply (f_equal NilZero.uint_of_string) in E.
  rewrite !NilZero.usu in E by apply Hnn.
  injection E as E. now apply DecimalNat.Unsigned.to_uint_inj.
Qed.

Lemma candidate_inj base k k' : candidate base k = candidate base k' -> k = k'.
Proof.
  unfold candidate. intros E.
  apply append_inj_l in E. cbn in E. injection E as E. now apply decimal_inj.
Qed.

(** Fewer names than candidates: a candidate past the length of the list
    is free when all the earlier ones are taken. *)
Lemma candidate_free base used k :
  (forall j, (1 <= j < k)%nat -> EE.name_taken (candidate base j) used = true) ->
  k = S (List.length used) ->
  EE.name_taken (candidate base k) used = false.
Proof.
  intros Hall Hk.
  destruct (EE.name_taken (candidate base k) used) eqn:Hlast; [|reflexivity].
  exfalso.
  assert (Hin : incl (map (candidate base) (seq 1 k)) used).
  { intros n Hn. apply in_map_iff in Hn. destruct Hn as (j & <- & Hj).
    apply in_seq in Hj.
    assert (Ht : EE.name_taken (candidate base j) used = true).
    { destruct (Nat.eq_dec j k) as [->|Hne]; [exact Hlast|apply Hall; lia]. }
    unfold EE.name_taken in Ht. apply existsb_exists in Ht.
    destruct Ht as (y & Hy & Heq). apply String.eqb_eq in Heq. now subst. }
  apply NoDup_incl_length in Hin.
  - rewrite length_map, length_seq in Hin. lia.
  - apply Injective_map_NoDup_in; [|apply seq_NoDup].
    intros a b _ _. apply candidate_inj.
Qed.

Lemma freshen_extend base used x fuel k :
  (forall j, String.eqb (candidate base j) x = false) ->
  (forall j, (1 <= j < k)%nat -> EE.name_taken (candidate base j) used = true) ->
  (fuel + k = S (List.length used))%nat ->
  EE.freshen (S fuel) k (used ++ [x]) base = EE.freshen fuel k used base.
Proof.
  intros Hx. revert k.
  induction fuel as [|fuel IH]; intros k Hall Hk.
  - cbn [EE.freshen]. fold (candidate base k). fold (candidate base (S k)).
    rewrite name_taken_app, Hx, orb_false_r.
    rewrite candidate_free; [reflexivity|exact Hall|lia].
  - cbn [EE.freshen]. fold (candidate base k). fold (candidate base (S k)).
    rewrite name_taken_app, Hx, orb_false_r.
    destruct (EE.name_taken (candidate base k) used) eqn:Hk'; [|reflexivity].
    change (EE.freshen (S fuel) (S k) (used ++ [x]) base
            = EE.freshen fuel (S k) used base).
    apply IH; [|lia].
    intros j Hj. destruct (Nat.eq_dec j k) as [->|Hne]; [exact Hk'|apply Hall; lia].
Qed.

(** A name that starts with another letter does not change the name a
    band gets. *)
Lemma unique_name_extend used x c s :
  first_char x <> Some c ->
  EE.unique_name (used ++ [x]) (String c s) = EE.unique_name used (String c s).
Proof.
  intros Hx. unfold EE.unique_name.
  rewrite name_taken_app.
  rewrite (eqb_first_char (String c s) x) by (cbn; congruence).
  rewrite orb_false_r.
  destruct (EE.name_taken (String c s) used); [|reflexivity].
  rewrite length_app. cbn [List.length]. rewrite Nat.add_1_r.
  apply freshen_extend.
  - intros j. apply eqb_first_char. cbn. congruence.
  - intros j Hj. lia.
  - lia.
Qed.

Lemma find_band_snoc name (bs : list Band) n r :
  find_band name (bs ++ [(n, r)]) =
  match find_band name bs with
  | Some x => Some x
  | None => if String.eqb n name then Some r else None
  end.
Proof.
  induction bs as [|[m y] bs IH]; cbn; [reflexivity|].
  destruct (String.eqb m name); auto.
Qed.

End FreshNames.

Section Commutation.

Context {G : Type}.
Implicit Types image : Image G.

Lemma ndvi_name_first used :
  first_char (EE.unique_name used "NDVI") = Some "N"%char.
Proof. apply unique_name_first_char. Qed.

Lemma lst_name_first used :
  first_char (EE.unique_name used "LST") = Some "L"%char.
Proof. apply unique_name_first_char. Qed.

(** C10: the two derivations commute.  Run in either order on a scene,
    they fail together or succeed together; when they succeed every band
    name reads the same raster in both results, the bands are those of the
    scene followed by the two derived bands in the order of the calls, and
    the capture time, cloud cover and footprint agree. *)
Theorem derivations_commute image :
  match (mid <- addNdvi image ;; addLST mid),
        (mid <- addLST image ;; addNdvi mid) with
  | Ok a, Ok b =>
      (forall name, find_band name (bands a) = find_band name (bands b))
      /\ (exists ndvi lst,
             bands a = bands image ++ [ndvi; lst]
             /\ bands b = bands image ++ [lst; ndvi])
      /\ time_start a = time_start b
      /\ CLOUD_COVER a = CLOUD_COVER b
      /\ footprint a = footprint b
  | Err _, Err _ => True
  | _, _ => False
  end.
Proof.
  set (names := band_names image).
  set (nN := EE.unique_name names "NDVI").
  set (nL := EE.unique_name names "LST").
  assert (HN : first_char nN = Some "N"%char) by apply ndvi_name_first.
  assert (HL : first_char nL = Some "L"%char) by apply lst_name_first.
  assert (HNS : forall s, String.eqb nN (String "S" s) = false).
  { intros s. apply eqb_first_char. rewrite HN. cbn. congruence. }
  assert (HLS : forall s, String.eqb nL (String "S" s) = false).
  { intros s. apply eqb_first_char. rewrite HL. cbn. congruence. }
  rewrite (addNdvi_unfold image), (addLST_unfold image).
  fold names nN nL.
  destruct (find_band "SR_B5" (bands image)) as [nir|] eqn:H5;
    destruct (find_band "SR_B4" (bands image)) as [red|] eqn:H4;
    destruct (find_band "ST_B10" (bands image)) as [t|] eqn:H10;
    cbn [bind];
    rewrite ?addNdvi_unfold, ?addLST_unfold; cbn [bands with_bands];
    rewrite ?find_band_snoc, ?H5, ?H4, ?H10, ?HNS, ?HLS; trivial.
  unfold band_names. cbn [bands with_bands].
  rewrite !map_app. cbn [map fst].
  rewrite !unique_name_extend by (rewrite ?HN, ?HL; congruence).
  change (EE.unique_name (map fst (bands image)) "LST") with nL.
  change (EE.unique_name (map fst (bands image)) "NDVI") with nN.
  cbn [bands with_bands time_start CLOUD_COVER footprint].
  rewrite <- !app_assoc. cbn [app].
  repeat split.
  - intros name.
    rewrite !(find_band_app_none_or name (bands image)).
    destruct (find_band name (bands image)); [reflexivity|].
    cbn.
    destruct (String.eqb nN name) eqn:E1; destruct (String.eqb nL name) eqn:E2;
      try reflexivity.
    apply String.eqb_eq in E1, E2. subst name. rewrite <- E2 in HN. congruence.
  - eexists. eexists. split; reflexivity.
Qed.

End Commutation.

(** ** The scene filter *)

Section SceneFilter.

Context {G : Type} `{Geometry G}.

Lemma Qlt_bool_iff x y : EE.Qlt_bool x y = true <-> (x < y)%Q.
Proof. unfold EE.Qlt_bool, Qlt. apply Z.ltb_lt. Qed.

Lemma lt_cloud_cover threshold (i : Image G) :
  EE.lt "CLOUD_COVER" threshold i = true <-> (CLOUD_COVER i < threshold)%Q.
Proof. unfold EE.lt. cbn. apply Qlt_bool_iff. Qed.

Lemma filter_fuse {A : Type} (f g : A -> bool) (l : list A) :
  filter f (filter g l) = filter (fun x => g x && f x) l.
Proof.
  induction l as [|a l IH]; cbn; [reflexivity|].
  destruct (g a); cbn; [|exact IH].
  destruct (f a); [f_equal|]; exact IH.
Qed.

Lemma ascending_filter (f : Image G -> bool) coll :
  ascending coll -> ascending (filter f coll).
Proof.
  unfold ascending. induction 1 as [|a l Hl IH Ha]; cbn; [constructor|].
  destruct (f a); [|exact IH].
  constructor; [exact IH|].
  rewrite Forall_forall in *. intros x Hx. apply filter_In in Hx. now apply Ha.
Qed.

Lemma ascending_times (coll : list (Image G)) :
  ascending coll -> StronglySorted Z.le (map time_start coll).
Proof.
  unfold ascending. induction 1 as [|a l Hl IH Ha]; cbn; constructor; [exact IH|].
  rewrite Forall_forall in *. intros t Ht. apply in_map_iff in Ht.
  destruct Ht as (i & <- & Hi). now apply Ha.
Qed.

(** C7: filtering by bounds, then by date, then by cloud cover keeps
    exactly the scenes that intersect the region, were captured in
    [start, stop) and have cloud cover strictly below the threshold, in
    the order of the input (so an ascending collection stays ascending);
    when no scene qualifies the result is the empty collection, and the
    script's collection is then empty too, not an error. *)
Theorem scene_filter_exact (g : G) (start stop : Z) (threshold : Q)
        (coll : list (Image G)) :
  let out :=
    filter (EE.lt "CLOUD_COVER" threshold)
      (EE.filterDate start stop (EE.filterBounds g coll)) in
  (forall i,
      In i out <->
      In i coll /\ intersects (footprint i) g = true
      /\ start <= time_start i < stop /\ (CLOUD_COVER i < threshold)%Q)
  /\ out = filter (fun i => intersects (footprint i) g
                            && ((start <=? time_start i) && (time_start i <? stop)
                                && EE.lt "CLOUD_COVER" threshold i)) coll
  /\ (ascending coll -> ascending out)
  /\ ((forall i, In i coll ->
         ~ (intersects (footprint i) g = true
            /\ start <= time_start i < stop /\ (CLOUD_COVER i < threshold)%Q)) ->
      out = [])
  /\ filtered g coll =
       filter (EE.lt "CLOUD_COVER" 15)
         (EE.filterDate (EE.Date 2014 1 1) (EE.Date 2023 12 31)
            (EE.filterBounds g coll))
  /\ (filtered g coll = [] -> landsatCollection g coll = Ok []).
Proof.
  intros out.
  assert (Hin : forall i,
             In i out <->
             In i coll /\ intersects (footprint i) g = true
             /\ start <= time_start i < stop /\ (CLOUD_COVER i < threshold)%Q).
  { intros i. unfold out, EE.filterDate, EE.filterBounds.
    rewrite !filter_In, andb_true_iff, Z.leb_le, Z.ltb_lt, lt_cloud_cover.
    tauto. }
  split; [exact Hin|]. split; [|split; [|split; [|split]]].
  - unfold out, EE.filterDate, EE.filterBounds.
    now rewrite !filter_fuse.
  - intros Hasc. unfold out, EE.filterDate, EE.filterBounds.
    now repeat apply ascending_filter.
  - intros Hnone. destruct out as [|i rest] eqn:E; [reflexivity|].
    exfalso. destruct (proj1 (Hin i) (or_introl eq_refl)) as [Hi Hc].
    exact (Hnone i Hi Hc).
  - reflexivity.
  - intros Hempty. unfold landsatCollection. rewrite Hempty. reflexivity.
Qed.

End SceneFilter.

(** ** Collections *)

Section MapM.

Context {A B : Type}.

Lemma mapM_ok_map (f : A -> result B) (g : A -> B) (l : list A) :
  (forall a, In a l -> f a = Ok (g a)) -> mapM f l = Ok (map g l).
Proof.
  induction l as [|a l IH]; intros Hf; cbn; [reflexivity|].
  rewrite (Hf a) by now left. cbn.
  rewrite IH by (intros x Hx; apply Hf; now right). reflexivity.
Qed.

Lemma mapM_Forall2 (f : A -> result B) (l : list A) (l' : list B) :
  mapM f l = Ok l' -> Forall2 (fun a b => f a = Ok b) l l'.
Proof.
  revert l'. induction l as [|a l IH]; intros l'; cbn.
  - intros [= <-]. constructor.
  - destruct (f a) as [b|] eqn:Ha; cbn; [|discriminate].
    destruct (mapM f l) as [bs|]; cbn; [|discriminate].
    intros [= <-]. constructor; auto.
Qed.

Lemma mapM_map {C : Type} (f : A -> result B) (g : C -> A) (l : list C) :
  mapM f (map g l) = mapM (fun c => f (g c)) l.
Proof.
  induction l as [|c l IH]; cbn; [reflexivity|]. now rewrite IH.
Qed.

End MapM.

Section Collections.

Context {G : Type} `{Geometry G}.
Variable atlGeom : G.
Variable archive : list (Image G).

Lemma appended_name_found base (bs : list Band) r :
  find_band base (bs ++ [(EE.unique_name (map fst bs) base, r)]) <> None.
Proof.
  rewrite find_band_snoc.
  destruct (find_band base bs) eqn:E; [discriminate|].
  unfold EE.unique_name. rewrite (name_taken_find _ _ E).
  now rewrite String.eqb_refl.
Qed.

Lemma derived_facts (raw out : Image G) :
  derived raw out ->
  find_band "NDVI" (bands out) <> None
  /\ find_band "LST" (bands out) <> None
  /\ time_start out = time_start raw.
Proof.
  intros (mid & H1 & H2).
  destruct (addNdvi_appends _ _ H1) as [[r1 Hb1] (T1 & _)].
  destruct (addLST_appends _ _ H2) as [[r2 Hb2] (T2 & _)].
  split; [|split].
  - rewrite Hb2. rewrite find_band_app_none_or.
    pose proof (appended_name_found "NDVI" (bands raw) r1) as Hf.
    fold (band_names raw) in Hf. rewrite <- Hb1 in Hf.
    destruct (find_band "NDVI" (bands mid)); [discriminate|contradiction].
  - rewrite Hb2. apply appended_name_found.
  - congruence.
Qed.

Lemma landsatCollection_derived coll :
  landsatCollection atlGeom archive = Ok coll ->
  Forall2 derived (filtered atlGeom archive) coll.
Proof.
  unfold landsatCollection, EE.map.
  destruct (mapM addNdvi (filtered atlGeom archive)) as [mids|] eqn:E1; cbn;
    [|discriminate].
  intros E2. apply mapM_Forall2 in E1, E2.
  revert coll E2. induction E1 as [|raw mid raws mids H1 _ IH]; intros coll E2.
  - inversion E2. constructor.
  - inversion E2 as [|? out ? outs H2 Hrest]; subst.
    constructor; [now exists mid|now apply IH].
Qed.

Lemma landsatCollection_times coll :
  landsatCollection atlGeom archive = Ok coll ->
  map time_start coll = map time_start (filtered atlGeom archive)
  /\ List.length coll = List.length (filtered atlGeom archive).
Proof.
  intros Hc. apply landsatCollection_derived in Hc.
  induction Hc as [|raw out raws outs Hd _ IH]; cbn; [auto|].
  destruct IH as [IH1 IH2]. destruct (derived_facts _ _ Hd) as (_ & _ & Ht).
  split; congruence.
Qed.

Lemma landsatCollection_bands coll image :
  landsatCollection atlGeom archive = Ok coll ->
  In image coll ->
  find_band "NDVI" (bands image) <> None /\ find_band "LST" (bands image) <> None.
Proof.
  intros Hc Hin. apply landsatCollection_derived in Hc.
  induction Hc as [|raw out raws outs Hd _ IH]; [contradiction|].
  destruct Hin as [<-|Hin]; [|now apply IH].
  destruct (derived_facts _ _ Hd) as (? & ? & _). now split.
Qed.

Lemma select_picked names (image : Image G) :
  (forall n, In n names -> find_band n (bands image) <> None) ->
  EE.select names image = Ok (picked names image).
Proof.
  intros Hall. unfold EE.select, picked.
  rewrite (mapM_ok_map _ (fun n => (n, (fun scale p => sample image n scale p) : Raster))).
  - reflexivity.
  - intros n Hn. unfold sample, band_value.
    destruct (find_band n (bands image)) as [r|] eqn:E; [reflexivity|].
    now apply Hall in Hn.
Qed.

Lemma selectAll_picked names (coll : list (Image G)) :
  (forall i n, In i coll -> In n names -> find_band n (bands i) <> None) ->
  EE.selectAll names coll = Ok (map (picked names) coll).
Proof.
  intros Hall. unfold EE.selectAll. apply mapM_ok_map.
  intros i Hi. apply select_picked. intros n Hn. now apply (Hall i n).
Qed.

(** The rows of the correlation chart of a region. *)
Lemma correlation_rows region coll :
  landsatCollection atlGeom archive = Ok coll ->
  correlation atlGeom archive region =
  Ok (map (fun image =>
             (time_start image,
              [("correlation",
                EE.pearson (pixel_pairs image "LST" "NDVI" region 30))]))
          coll).
Proof.
  intros Hc. unfold correlation. rewrite Hc. cbn [bind].
  rewrite selectAll_picked.
  - cbn [bind]. unfold EE.series. rewrite mapM_map.
    apply mapM_ok_map. intros image _. reflexivity.
  - intros i n Hi [<-|[<-|[]]]; now apply (landsatCollection_bands coll i Hc Hi).
Qed.

(** The rows of the trend chart of a region. *)
Lemma trend_rows region coll :
  landsatCollection atlGeom archive = Ok coll ->
  trend atlGeom archive region =
  Ok (map (fun image =>
             (time_start image,
              [("NDVI", EE.mean_of (region_values image "NDVI" region 500));
               ("LST", EE.mean_of (region_values image "LST" region 500))]))
          coll).
Proof.
  intros Hc. unfold trend. rewrite Hc. cbn [bind].
  rewrite selectAll_picked.
  - cbn [bind]. unfold EE.series. rewrite mapM_map.
    apply mapM_ok_map. intros image _. reflexivity.
  - intros i n Hi [<-|[<-|[]]]; now apply (landsatCollection_bands coll i Hc Hi).
Qed.

End Collections.

(** ** Sums, means and the correlation coefficient *)

Section Statistics.

Local Open Scope Q_scope.

Lemma count_cons x l : EE.count (x :: l) == 1 + EE.count l.
Proof.
  unfold EE.count. cbn [List.length].
  rewrite Nat2Z.inj_succ, <- Z.add_1_l, inject_Z_plus. reflexivity.
Qed.

Lemma count_nonneg l : 0 <= EE.count l.
Proof.
  unfold EE.count. change 0 with (inject_Z 0). rewrite <- Zle_Qle. lia.
Qed.

Lemma count_pos x l : 0 < EE.count (x :: l).
Proof.
  rewrite count_cons. pose proof (count_nonneg l). lra.
Qed.

Lemma count_map {A : Type} (f : A -> Q) (g : A -> Q) l :
  EE.count (map f l) = EE.count (map g l).
Proof. unfold EE.count. now rewrite !length_map. Qed.

(** Sums of products of deviations from two given centres. *)
Lemma Qsum_affine a b (ps : list (Q * Q)) :
  (forall xy, In xy ps -> snd xy == a - b * fst xy) ->
  EE.Qsum (map snd ps) == EE.count (map snd ps) * a - b * EE.Qsum (map fst ps).
Proof.
  induction ps as [|[x y] ps IH]; intros Hxy.
  - cbn. unfold EE.count. cbn. ring.
  - cbn [map]. rewrite count_cons. cbn [EE.Qsum fold_right fst snd].
    fold (EE.Qsum (map snd ps)). fold (EE.Qsum (map fst ps)).
    rewrite IH by (intros p Hp; apply Hxy; now right).
    rewrite (Hxy (x, y)) by now left. cbn [fst snd]. ring.
Qed.

Lemma mean_affine a b (ps : list (Q * Q)) :
  ps <> [] ->
  (forall xy, In xy ps -> snd xy == a - b * fst xy) ->
  EE.mean_Q (map snd ps) == a - b * EE.mean_Q (map fst ps).
Proof.
  intros Hne Hxy. unfold EE.mean_Q.
  rewrite (Qsum_affine a b ps Hxy).
  rewrite (count_map snd fst ps).
  destruct ps as [|p ps]; [contradiction|].
  pose proof (count_pos (fst p) (map fst ps)) as Hpos. cbn [map] in *.
  field. lra.
Qed.

Lemma cross_affine a b mx my (ps : list (Q * Q)) :
  (forall xy, In xy ps -> snd xy == a - b * fst xy) ->
  my == a - b * mx ->
  EE.Qsum (map (fun p => (fst p - mx) * (snd p - my)) ps)
  == - b * EE.Qsum (map (fun p => (fst p - mx) * (fst p - mx)) ps).
Proof.
  intros Hxy Hm. induction ps as [|[x y] ps IH].
  - cbn. ring.
  - cbn [map EE.Qsum fold_right fst snd].
    fold (EE.Qsum (map (fun p => (fst p - mx) * (snd p - my)) ps)).
    fold (EE.Qsum (map (fun p => (fst p - mx) * (fst p - mx)) ps)).
    rewrite IH by (intros p Hp; apply Hxy; now right).
    pose proof (Hxy (x, y) (or_introl eq_refl)) as Hy. cbn [fst snd] in Hy.
    rewrite Hy, Hm. ring.
Qed.

Lemma square_affine a b mx my (ps : list (Q * Q)) :
  (forall xy, In xy ps -> snd xy == a - b * fst xy) ->
  my == a - b * mx ->
  EE.Qsum (map (fun p => (snd p - my) * (snd p - my)) ps)
  == b * b * EE.Qsum (map (fun p => (fst p - mx) * (fst p - mx)) ps).
Proof.
  intros Hxy Hm. induction ps as [|[x y] ps IH].
  - cbn. ring.
  - cbn [map EE.Qsum fold_right fst snd].
    fold (EE.Qsum (map (fun p => (snd p - my) * (snd p - my)) ps)).
    fold (EE.Qsum (map (fun p => (fst p - mx) * (fst p - mx)) ps)).
    rewrite IH by (intros p Hp; apply Hxy; now right).
    pose proof (Hxy (x, y) (or_introl eq_refl)) as Hy. cbn [fst snd] in Hy.
    rewrite Hy, Hm. ring.
Qed.

Lemma Qsquare_nonneg x : 0 <= x * x.
Proof. nra. Qed.

Lemma Qsquare_pos x : ~ x == 0 -> 0 < x * x.
Proof.
  intros Hne. destruct (Qlt_le_dec x 0) as [Hlt|Hge]; [nra|].
  destruct (Qle_lt_or_eq _ _ Hge) as [Hgt|Heq]; [nra|].
  exfalso. apply Hne. now symmetry.
Qed.

Lemma squares_nonneg m (ps : list (Q * Q)) :
  0 <= EE.Qsum (map (fun p => (fst p - m) * (fst p - m)) ps).
Proof.
  induction ps as [|[x y] ps IH]; cbn [map EE.Qsum fold_right fst snd]; [lra|].
  fold (EE.Qsum (map (fun p => (fst p - m) * (fst p - m)) ps)).
  pose proof (Qsquare_nonneg (x - m)). lra.
Qed.

Lemma squares_pos m (ps : list (Q * Q)) p :
  In p ps -> ~ fst p == m ->
  0 < EE.Qsum (map (fun p => (fst p - m) * (fst p - m)) ps).
Proof.
  induction ps as [|[x y] ps IH]; [contradiction|].
  intros [<-|Hin] Hne; cbn [map EE.Qsum fold_right fst snd];
    fold (EE.Qsum (map (fun p => (fst p - m) * (fst p - m)) ps)).
  - pose proof (squares_nonneg m ps) as Hrest. cbn [fst] in Hne.
    assert (Hsq : 0 < (x - m) * (x - m)).
    { apply Qsquare_pos. intros E. apply Hne. lra. }
    lra.
  - pose proof (IH Hin Hne) as Hrest.
    pose proof (Qsquare_nonneg (x - m)). lra.
Qed.

(** Two distinct first coordinates give the first coordinate a positive
    sum of squared deviations, whatever the centre. *)
Lemma ascending_spread m (ps : list (Q * Q)) :
  (2 <= List.length ps)%nat ->
  StronglySorted Qlt (map fst ps) ->
  0 < EE.Qsum (map (fun p => (fst p - m) * (fst p - m)) ps).
Proof.
  destruct ps as [|p1 [|p2 ps]]; cbn [List.length]; try lia.
  intros _ Hs. cbn [map] in Hs.
  apply StronglySorted_inv in Hs. destruct Hs as [_ Hall].
  apply Forall_inv in Hall.
  destruct (Qeq_dec (fst p1) m) as [E1|N1].
  - apply (squares_pos m _ p2); [right; now left|].
    intros E2. rewrite E1, E2 in Hall. lra.
  - apply (squares_pos m _ p1); [now left|exact N1].
Qed.

End Statistics.

Section Pearson.

Lemma Qeq_bool_false x y : ~ (x == y)%Q -> Qeq_bool x y = false.
Proof.
  intros Hne. destruct (Qeq_bool x y) eqn:E; [|reflexivity].
  apply Qeq_bool_iff in E. contradiction.
Qed.

(** Pairs on a line of negative slope, with at least two distinct
    abscissas, have correlation -1. *)
Lemma pearson_anticorrelated (a b : Q) (ps : list (Q * Q)) :
  (0 < b)%Q ->
  (2 <= List.length ps)%nat ->
  StronglySorted Qlt (map fst ps) ->
  (forall xy, In xy ps -> (snd xy == a - b * fst xy)%Q) ->
  EE.pearson ps = Some (-1)%R.
Proof.
  intros Hb Hlen Hsorted Hline.
  assert (Hne : ps <> []) by (destruct ps; [cbn in Hlen; lia|discriminate]).
  pose proof (mean_affine a b ps Hne Hline) as Hmean.
  set (mx := EE.mean_Q (map fst ps)) in *.
  set (my := EE.mean_Q (map snd ps)) in *.
  set (S := EE.Qsum (map (fun p => (fst p - mx) * (fst p - mx))%Q ps)).
  assert (HS : (0 < S)%Q) by (apply ascending_spread; assumption).
  assert (Hxx : EE.Sxx ps = S) by reflexivity.
  assert (Hxy : (EE.Sxy ps == - b * S)%Q).
  { unfold EE.Sxy, EE.dev. fold mx my. apply (cross_affine a b); assumption. }
  assert (Hyy : (EE.Syy ps == b * b * S)%Q).
  { unfold EE.Syy, EE.dev. fold my. apply (square_affine a b mx); assumption. }
  assert (HbS : (0 < b * S)%Q) by (apply Qmult_lt_0_compat; assumption).
  unfold EE.pearson.
  replace (Nat.ltb (List.length ps) 2) with false
    by (symmetry; apply Nat.ltb_ge; exact Hlen).
  rewrite Hxx.
  rewrite (Qeq_bool_false S 0) by lra.
  rewrite (Qeq_bool_false (EE.Syy ps) 0) by (rewrite Hyy; nra).
  cbn [orb]. f_equal.
  assert (Hprod : (S * EE.Syy ps == (b * S) * (b * S))%Q) by (rewrite Hyy; ring).
  assert (Hnum : (EE.Sxy ps == - (b * S))%Q) by (rewrite Hxy; ring).
  rewrite (Qeq_eqR _ _ Hprod), (Qeq_eqR _ _ Hnum).
  rewrite Q2R_mult, Q2R_opp.
  assert (HR : (0 < Q2R (b * S))%R).
  { rewrite <- RMicromega.Q2R_0. now apply Qlt_Rlt. }
  rewrite sqrt_square by Lra.lra.
  field. Lra.lra.
Qed.

(** Fewer than two pairs, or no spread in one coordinate: no value. *)
Lemma pearson_degenerate (ps : list (Q * Q)) :
  (List.length ps < 2)%nat \/ (EE.Sxx ps == 0)%Q \/ (EE.Syy ps == 0)%Q ->
  EE.pearson ps = None.
Proof.
  unfold EE.pearson. intros [Hlen|[Hx|Hy]].
  - apply Nat.ltb_lt in Hlen. now rewrite Hlen.
  - apply Qeq_bool_iff in Hx. rewrite Hx. now rewrite orb_true_r.
  - apply Qeq_bool_iff in Hy. rewrite Hy. now rewrite orb_true_r.
Qed.

(** A coordinate that is the same at every pair has no spread. *)
Lemma constant_no_spread (f : Q * Q -> Q) (c : Q) (ps : list (Q * Q)) :
  (forall p, In p ps -> (f p == c)%Q) -> (EE.dev f f ps == 0)%Q.
Proof.
  intros Hc. destruct ps as [|p0 ps0] eqn:Eps; [reflexivity|]. rewrite <- Eps in *.
  assert (Hsum : forall l : list (Q * Q), (forall p, In p l -> (f p == c)%Q) ->
                 (EE.Qsum (map f l) == EE.count (map f l) * c)%Q).
  { induction l as [|q l IH]; intros Hl.
    - cbn. unfold EE.count. cbn. ring.
    - cbn [map]. rewrite count_cons. cbn [EE.Qsum fold_right].
      fold (EE.Qsum (map f l)).
      rewrite IH by (intros x Hx; apply Hl; now right).
      rewrite (Hl q) by now left. ring. }
  assert (Hm : (EE.mean_Q (map f ps) == c)%Q).
  { unfold EE.mean_Q. rewrite (Hsum ps Hc). subst ps. cbn [map].
    pose proof (count_pos (f p0) (map f ps0)). field. lra. }
  unfold EE.dev. set (m := EE.mean_Q (map f ps)) in *.
  clearbody m. clear Eps Hsum.
  induction ps as [|q l IH]; [reflexivity|].
  cbn [map EE.Qsum fold_right].
  fold (EE.Qsum (map (fun p => (f p - m) * (f p - m))%Q l)).
  rewrite IH by (intros x Hx; apply Hc; now right).
  rewrite (Hc q) by now left. rewrite Hm. ring.
Qed.

End Pearson.

(** ** The median *)

Section Median.

Lemma insert_perm x l : Permutation (x :: l) (EE.insert x l).
Proof.
  induction l as [|y l IH]; cbn; [reflexivity|].
  destruct (Qle_bool x y); [reflexivity|].
  rewrite perm_swap. now constructor.
Qed.

Lemma sort_perm l : Permutation l (EE.sort l).
Proof.
  induction l as [|x l IH]; cbn; [constructor|].
  rewrite <- insert_perm. now constructor.
Qed.

Lemma insert_sorted x l :
  StronglySorted Qle l -> StronglySorted Qle (EE.insert x l).
Proof.
  induction 1 as [|y l Hl IH Hy]; cbn.
  - repeat constructor.
  - destruct (Qle_bool x y) eqn:E.
    + apply Qle_bool_iff in E. constructor; [now constructor|].
      constructor; [exact E|].
      rewrite Forall_forall in *. intros z Hz.
      apply Qle_trans with y; [exact E|now apply Hy].
    + assert (Hyx : (y <= x)%Q).
      { destruct (Qlt_le_dec y x) as [Hlt|Hle]; [now apply Qlt_le_weak|].
        apply Qle_bool_iff in Hle. congruence. }
      constructor; [exact IH|].
      rewrite Forall_forall in *. intros z Hz.
      apply (Permutation_in _ (Permutation_sym (insert_perm x l))) in Hz.
      destruct Hz as [<-|Hz]; [exact Hyx|now apply Hy].
Qed.

Lemma sort_sorted l : StronglySorted Qle (EE.sort l).
Proof.
  induction l as [|x l IH]; cbn; [constructor|now apply insert_sorted].
Qed.

(** The median is read off the sorted values: the middle one, or the mean
    of the two central ones. *)
Lemma median_of_sorted (vs : list Q) :
  exists s,
    Permutation vs s /\ StronglySorted Qle s
    /\ EE.median_of vs =
       match List.length s with
       | O => None
       | n =>
           if Nat.even n
           then Some ((nth (n / 2 - 1) s 0 + nth (n / 2) s 0) / 2)%Q
           else Some (nth (n / 2) s 0%Q)
       end.
Proof.
  exists (EE.sort vs). split; [apply sort_perm|]. split; [apply sort_sorted|].
  unfold EE.median_of. cbv zeta.
  destruct (List.length (EE.sort vs)); reflexivity.
Qed.

End Median.

Section Composites.

Context {G : Type} `{Geometry G}.
Variable atlGeom : G.
Variable archive : list (Image G).

Lemma find_band_named (R : string -> Raster) names n :
  In n names -> find_band n (map (fun m => (m, R m)) names) = Some (R n).
Proof.
  induction names as [|m names IH]; [contradiction|].
  intros Hin. cbn. destruct (String.eqb m n) eqn:E.
  - apply String.eqb_eq in E. now subst.
  - destruct Hin as [->|Hin]; [now rewrite String.eqb_refl in E|auto].
Qed.

Lemma sample_picked names (image : Image G) n scale p :
  In n names -> sample (picked names image) n scale p = sample image n scale p.
Proof.
  intros Hin. unfold sample at 1, band_value, picked. cbn [bands with_bands].
  now rewrite (find_band_named (fun m scale p => sample image m scale p)).
Qed.

Lemma select_found names (image si : Image G) :
  EE.select names image = Ok si ->
  forall n, In n names -> find_band n (bands image) <> None.
Proof.
  unfold EE.select.
  destruct (mapM _ names) as [bs|] eqn:E; cbn; [|discriminate].
  intros _. apply mapM_Forall2 in E.
  induction E as [|n b names bs Hn _ IH]; [contradiction|].
  intros m [<-|Hm]; [|now apply IH].
  destruct (find_band n (bands image)); [discriminate|discriminate].
Qed.

Lemma selectAll_inv names (coll s : list (Image G)) :
  EE.selectAll names coll = Ok s -> s = map (picked names) coll.
Proof.
  intros Hs.
  assert (Hall : forall i n, In i coll -> In n names ->
                 find_band n (bands i) <> None).
  { unfold EE.selectAll in Hs. apply mapM_Forall2 in Hs.
    induction Hs as [|i si coll s Hi _ IH]; [contradiction|].
    intros j n [<-|Hj] Hn; [now apply (select_found names i si)|now apply IH]. }
  rewrite (selectAll_picked names coll Hall) in Hs. now injection Hs.
Qed.

(** The composite of the named bands, pixel by pixel. *)
Lemma composite_values names bs :
  composite atlGeom archive names = Ok bs ->
  exists coll,
    landsatCollection atlGeom archive = Ok coll
    /\ forall n scale p,
         In n names ->
         band_value bs n scale p =
         if inside atlGeom scale p
         then EE.median_of (pixel_stack coll n scale p)
         else None.
Proof.
  unfold composite.
  destruct (landsatCollection atlGeom archive) as [coll|]; cbn [bind]; [|discriminate].
  destruct (EE.selectAll names coll) as [s|] eqn:Hs; cbn [bind]; [|discriminate].
  intros [= <-]. exists coll. split; [reflexivity|].
  intros n scale p Hn. apply selectAll_inv in Hs. subst s.
  destruct coll as [|first rest].
  - cbn. now destruct (inside atlGeom scale p).
  - assert (Hnames : band_names (picked names first) = names).
    { unfold band_names, picked. cbn [bands with_bands].
      rewrite map_map. cbn. apply map_id. }
    unfold EE.median. cbn [map]. rewrite Hnames.
    change (picked names first :: map (picked names) rest)
      with (map (picked names) (first :: rest)).
    set (coll := first :: rest).
    unfold EE.clip. rewrite map_map. cbn [fst snd].
    unfold band_value.
    rewrite (find_band_named
               (fun m scale p =>
                  if inside atlGeom scale p
                  then EE.median_of
                         (EE.valid (map (fun i => sample i m scale p)
                                        (map (picked names) coll)))
                  else None) names n Hn).
    destruct (inside atlGeom scale p); [|reflexivity].
    unfold pixel_stack. rewrite map_map. do 2 f_equal.
    apply map_ext. intros i. now apply sample_picked.
Qed.

End Composites.

(** ** The charts and the composites of the script *)

Section Charts.

Context {G : Type} `{Geometry G}.
Variable atlGeom : G.
Variable archive : list (Image G).

(** C1: the correlation chart of a region has, for each scene of the
    collection, the scene's capture time and Pearson's coefficient of the
    scene's own valid (LST, NDVI) pixel pairs over the cells of the region
    at scale 30; a scene whose pairs lie on a line of negative slope, with
    LST strictly ascending over at least 3 pixels, has the entry -1. *)
Theorem correlation_is_spatial (region : G) (coll : list (Image G)) :
  landsatCollection atlGeom archive = Ok coll ->
  correlation atlGeom archive region =
    Ok (map (fun image =>
               (time_start image,
                [("correlation",
                  EE.pearson (pixel_pairs image "LST" "NDVI" region 30))]))
            coll)
  /\ forall image (a b : Q),
       In image coll ->
       (0 < b)%Q ->
       (3 <= List.length (pixel_pairs image "LST" "NDVI" region 30))%nat ->
       StronglySorted Qlt (map fst (pixel_pairs image "LST" "NDVI" region 30)) ->
       (forall xy, In xy (pixel_pairs image "LST" "NDVI" region 30) ->
                   (snd xy == a - b * fst xy)%Q) ->
       EE.pearson (pixel_pairs image "LST" "NDVI" region 30) = Some (-1)%R.
Proof.
  intros Hc. split; [now apply correlation_rows|].
  intros image a b _ Hb Hlen Hsorted Hline.
  apply (pearson_anticorrelated a b); try assumption. lia.
Qed.

(** C2: a scene with fewer than 2 valid pixel pairs in the region, or with
    zero variance of LST or of NDVI over them (in particular a band that is
    constant over them), gets a no-data correlation entry; the chart is
    still produced, with one row per scene, each computed from its own
    scene. *)
Theorem degenerate_correlation_is_no_data (region : G) (coll : list (Image G)) :
  landsatCollection atlGeom archive = Ok coll ->
  exists rows,
    correlation atlGeom archive region = Ok rows
    /\ List.length rows = List.length coll
    /\ forall k image,
         nth_error coll k = Some image ->
         nth_error rows k =
           Some (time_start image,
                 [("correlation",
                   EE.pearson (pixel_pairs image "LST" "NDVI" region 30))])
         /\ ((List.length (pixel_pairs image "LST" "NDVI" region 30) < 2)%nat
             \/ (EE.Sxx (pixel_pairs image "LST" "NDVI" region 30) == 0)%Q
             \/ (EE.Syy (pixel_pairs image "LST" "NDVI" region 30) == 0)%Q
             \/ (exists c, forall xy,
                     In xy (pixel_pairs image "LST" "NDVI" region 30) ->
                     (fst xy == c)%Q)
             \/ (exists c, forall xy,
                     In xy (pixel_pairs image "LST" "NDVI" region 30) ->
                     (snd xy == c)%Q) ->
             nth_error rows k = Some (time_start image, [("correlation", None)])).
Proof.
  intros Hc. eexists.
  split; [exact (correlation_rows atlGeom archive region coll Hc)|].
  split; [apply length_map|].
  intros k image Hk.
  assert (Hrow : nth_error
                   (map (fun image =>
                           (time_start image,
                            [("correlation",
                              EE.pearson (pixel_pairs image "LST" "NDVI" region 30))]))
                        coll) k
                 = Some (time_start image,
                         [("correlation",
                           EE.pearson (pixel_pairs image "LST" "NDVI" region 30))])).
  { rewrite nth_error_map, Hk. reflexivity. }
  split; [exact Hrow|].
  intros Hdeg. rewrite Hrow. rewrite pearson_degenerate; [reflexivity|].
  destruct Hdeg as [Hlen|[Hx|[Hy|[[c Hx]|[c Hy]]]]]; auto.
  - right. left. exact (constant_no_spread fst c _ Hx).
  - right. right. exact (constant_no_spread snd c _ Hy).
Qed.

(** C6: both charts of a region have exactly one row per scene of the
    filtered collection, carrying the scenes' capture times in collection
    order; a scene with no valid pixel in the region keeps its row, with
    no-data values. *)
Theorem series_one_row_per_scene (region : G) (coll : list (Image G)) :
  landsatCollection atlGeom archive = Ok coll ->
  exists ts cs,
    trend atlGeom archive region = Ok ts
    /\ correlation atlGeom archive region = Ok cs
    /\ List.length coll = List.length (filtered atlGeom archive)
    /\ List.length ts = List.length (filtered atlGeom archive)
    /\ List.length cs = List.length (filtered atlGeom archive)
    /\ map fst ts = map time_start (filtered atlGeom archive)
    /\ map fst cs = map time_start (filtered atlGeom archive)
    /\ (ascending archive ->
        StronglySorted Z.le (map fst ts) /\ StronglySorted Z.le (map fst cs))
    /\ forall k image,
         nth_error coll k = Some image ->
         (region_values image "NDVI" region 500 = [] ->
          region_values image "LST" region 500 = [] ->
          nth_error ts k =
            Some (time_start image, [("NDVI", None); ("LST", None)]))
         /\ (pixel_pairs image "LST" "NDVI" region 30 = [] ->
             nth_error cs k = Some (time_start image, [("correlation", None)])).
Proof.
  intros Hc.
  destruct (landsatCollection_times atlGeom archive coll Hc) as [Htimes Hlen].
  eexists. eexists.
  split; [exact (trend_rows atlGeom archive region coll Hc)|].
  split; [exact (correlation_rows atlGeom archive region coll Hc)|].
  split; [exact Hlen|].
  rewrite !length_map, !map_map. cbn [fst].
  repeat (split; [assumption|]).
  split.
  { intros Hasc.
    assert (Hs : StronglySorted Z.le (map time_start (filtered atlGeom archive))).
    { apply ascending_times. unfold filtered, EE.filterDate, EE.filterBounds.
      now repeat apply ascending_filter. }
    rewrite <- Htimes in Hs. split; exact Hs. }
  intros k image Hk. rewrite !nth_error_map, Hk. cbn [option_map].
  split.
  - intros -> ->. reflexivity.
  - intros ->. reflexivity.
Qed.

(** C5: a composite of the script carries, for each requested band and
    each pixel of the county, the median of the pixel's valid values
    across the scenes of the collection: with the values sorted, the
    middle one, or the mean of the two central ones when their number is
    even (two values 10 and 20 give 15); a pixel with no valid value is
    no-data. *)
Theorem composite_is_median (names : list string) (bs : list Band) :
  composite atlGeom archive names = Ok bs ->
  exists coll,
    landsatCollection atlGeom archive = Ok coll
    /\ forall n scale p,
         In n names ->
         inside atlGeom scale p = true ->
         band_value bs n scale p = EE.median_of (pixel_stack coll n scale p)
         /\ (exists s,
                Permutation (pixel_stack coll n scale p) s
                /\ StronglySorted Qle s
                /\ band_value bs n scale p =
                   match List.length s with
                   | O => None
                   | m =>
                       if Nat.even m
                       then Some ((nth (m / 2 - 1) s 0 + nth (m / 2) s 0) / 2)%Q
                       else Some (nth (m / 2) s 0%Q)
                   end)
         /\ (pixel_stack coll n scale p = [10; 20]%Q
             \/ pixel_stack coll n scale p = [20; 10]%Q ->
             exists v, band_value bs n scale p = Some v /\ (v == 15)%Q)
         /\ (pixel_stack coll n scale p = [] -> band_value bs n scale p = None).
Proof.
  intros Hb. destruct (composite_values atlGeom archive names bs Hb) as (coll & Hc & Hv).
  exists coll. split; [exact Hc|].
  intros n scale p Hn Hin.
  assert (Hval : band_value bs n scale p = EE.median_of (pixel_stack coll n scale p)).
  { rewrite (Hv n scale p Hn), Hin. reflexivity. }
  split; [exact Hval|]. split; [|split].
  - destruct (median_of_sorted (pixel_stack coll n scale p)) as (s & Hp & Hs & Hm).
    exists s. split; [exact Hp|]. split; [exact Hs|]. now rewrite Hval.
  - intros [E|E]; rewrite Hval, E; eexists; (split; [reflexivity|reflexivity]).
  - intros E. now rewrite Hval, E.
Qed.

End Charts.

(** ** The script against the configurable pipeline *)

(** C9, as the script has it: the date interval, the cloud-cover threshold,
    the three band names, the radiometric constants, the two resolutions and
    the NDVI scale factor are written in the script, so each stage is the
    configurable stage at the one configuration [Configured.reference];
    only the archive and the region geometries are supplied from outside. *)
Theorem pipeline_is_reference_configuration {G : Type} `{Geometry G}
        (atlGeom : G) (archive : list (Image G)) (region : G) (names : list string) :
  (forall image : Image G,
      addNdvi image = Configured.addNdvi Configured.reference image)
  /\ (forall image : Image G,
         addLST image = Configured.addLST Configured.reference image)
  /\ filtered atlGeom archive
     = Configured.filtered Configured.reference atlGeom archive
  /\ landsatCollection atlGeom archive
     = Configured.landsatCollection Configured.reference atlGeom archive
  /\ composite atlGeom archive names
     = Configured.composite Configured.reference atlGeom archive names
  /\ trend atlGeom archive region
     = Configured.trend Configured.reference atlGeom archive region
  /\ correlation atlGeom archive region
     = Configured.correlation Configured.reference atlGeom archive region.
Proof.
  repeat split; reflexivity.
Qed.

(** ** Concrete runs *)

(** With a cloud-cover threshold of 50 in the configuration, the
    configurable pipeline charts the scene with 20% cloud cover; the script
    does not. *)
Lemma configuration_is_ignored :
  Configured.trend Example.lenient Example.area [Example.hazy] Example.area
  <> trend Example.area [Example.hazy] Example.area.
Proof.
  intros E. vm_compute in E. discriminate E.
Qed.

(** Where NIR and RED are both 0, the NDVI band carries the value 0: the
    pixel is valid, not masked. *)
Lemma addNdvi_zero_sum_not_masked :
  exists image',
    addNdvi Example.dark = Ok image'
    /\ sample Example.dark "SR_B5" 30 (0, 0) = Some 0%Q
    /\ sample Example.dark "SR_B4" 30 (0, 0) = Some 0%Q
    /\ sample image' "NDVI" 30 (0, 0) = Some 0%Q
    /\ sample image' "NDVI" 30 (0, 0) <> None.
Proof.
  eexists. split; [reflexivity|].
  repeat split; try reflexivity. discriminate.
Qed.

(** The June scene: its LST band at the cell with thermal number 30000. *)
Lemma addLST_celsius_witness :
  exists lst,
    addLST Example.june
    = Ok (with_bands Example.june (bands Example.june ++ [("LST", lst)]))
    /\ exists v, lst 30 (0, 0) = Some v /\ (v == -21.4594)%Q.
Proof.
  destruct (addLST_celsius Example.june
              (Example.column (fun c => inject_Z (30000 + 1000 * c))) eq_refl)
    as (lst & Hrun & _ & _ & H30).
  exists lst. split; [exact Hrun|]. apply H30. reflexivity.
Defined.

(** The June scene: NIR = RED = 6000 at the cell (0, 1). *)
Lemma addNdvi_value_witness :
  exists ndvi,
    addNdvi Example.june
    = Ok (with_bands Example.june (bands Example.june ++ [("NDVI", ndvi)]))
    /\ exists v, ndvi 30 (0, 1) = Some v /\ (v == 0)%Q.
Proof.
  destruct (addNdvi_value Example.june
              (Example.column (fun c => inject_Z (9000 - 3000 * c)))
              (Example.column (fun c => inject_Z (3000 + 3000 * c)))
              eq_refl eq_refl)
    as (ndvi & Hrun & Hpix).
  exists ndvi. split; [exact Hrun|].
  specialize (Hpix 30 (0, 1)). cbn in Hpix.
  destruct Hpix as (v & Hv & _ & Hzero & _).
  exists v. split; [exact Hv|]. apply Hzero; [reflexivity|].
  intros E. vm_compute in E. discriminate E.
Defined.

(** The June scene keeps its bands and metadata through [addNdvi]. *)
Lemma derivation_frame_witness :
  exists image',
    addNdvi Example.june = Ok image'
    /\ (exists added, bands image' = bands Example.june ++ added)
    /\ time_start image' = EE.Date 2015 6 1
    /\ (CLOUD_COVER image' == 3)%Q.
Proof.
  eexists. split; [reflexivity|].
  destruct (derivation_frame Example.june _ (or_introl eq_refl))
    as (Hb & _ & Ht & Hc & _).
  split; [exact Hb|]. split; [exact Ht|]. rewrite Hc. reflexivity.
Defined.

(** The June scene is greener where it is cooler, linearly: r = -1. *)
Lemma correlation_is_spatial_witness :
  correlation Example.area [Example.june] Example.area
  = Ok [(EE.Date 2015 6 1, [("correlation", Some (-1)%R)])].
Proof.
  pose proof (fun coll => correlation_is_spatial Example.area [Example.june]
                            Example.area coll) as T.
  edestruct T as [Hrows Hanti]; [reflexivity|].
  rewrite Hrows. cbn [map].
  rewrite (Hanti _ (50 + 50 / 3.41802 * -21.4594)%Q (50 / 3.41802)%Q).
  - reflexivity.
  - now left.
  - reflexivity.
  - vm_compute. lia.
  - vm_compute. repeat constructor.
  - intros xy Hin. vm_compute in Hin.
    destruct Hin as [<-|[<-|[<-|[]]]]; vm_compute; reflexivity.
Defined.

(** The dark scene has constant NDVI: its row carries no value. *)
Lemma degenerate_correlation_is_no_data_witness :
  exists rows,
    correlation Example.area [Example.june; Example.dark] Example.area = Ok rows
    /\ List.length rows = 2%nat
    /\ nth_error rows 1 = Some (EE.Date 2016 6 1, [("correlation", None)]).
Proof.
  pose proof (fun coll => degenerate_correlation_is_no_data Example.area
                            [Example.june; Example.dark] Example.area coll) as T.
  edestruct T as (rows & Hrows & Hlen & Hrow); [reflexivity|].
  exists rows. split; [exact Hrows|]. split; [exact Hlen|].
  edestruct (Hrow 1%nat) as [_ Hdeg]; [reflexivity|].
  apply Hdeg. do 4 right. exists 0%Q.
  intros xy Hin. vm_compute in Hin.
  destruct Hin as [<-|[<-|[<-|[]]]]; reflexivity.
Defined.

(** Over a region no scene covers, both charts keep a row per scene. *)
Lemma series_one_row_per_scene_witness :
  exists ts cs,
    trend Example.area [Example.june; Example.hazy; Example.dark] Example.elsewhere
    = Ok ts
    /\ correlation Example.area [Example.june; Example.hazy; Example.dark]
                   Example.elsewhere = Ok cs
    /\ map fst ts = [EE.Date 2015 6 1; EE.Date 2016 6 1]
    /\ map fst cs = [EE.Date 2015 6 1; EE.Date 2016 6 1]
    /\ nth_error ts 0 = Some (EE.Date 2015 6 1, [("NDVI", None); ("LST", None)])
    /\ nth_error cs 0 = Some (EE.Date 2015 6 1, [("correlation", None)]).
Proof.
  pose proof (fun coll => series_one_row_per_scene Example.area
                            [Example.june; Example.hazy; Example.dark]
                            Example.elsewhere coll) as T.
  edestruct T as (ts & cs & Ht & Hc & _ & _ & _ & Hts & Hcs & _ & Hrow); [reflexivity|].
  exists ts, cs. split; [exact Ht|]. split; [exact Hc|].
  split; [exact Hts|]. split; [exact Hcs|].
  edestruct (Hrow 0%nat) as [Hmean Hcorr]; [reflexivity|].
  split; [apply Hmean; reflexivity|apply Hcorr; reflexivity].
Defined.

(** Two scenes with NDVI 50 and 0 at the cell (0, 0): the composite is 25. *)
Lemma composite_is_median_witness :
  ndviImage Example.area [Example.june; Example.dark] = Ok Example.ndvi_composite
  /\ band_value Example.ndvi_composite "NDVI" 30 (0, 0) = Some (600000 # 24000)%Q
  /\ (600000 # 24000 == 25)%Q.
Proof.
  assert (Hb : ndviImage Example.area [Example.june; Example.dark]
               = Ok Example.ndvi_composite) by reflexivity.
  split; [exact Hb|]. split; [|reflexivity].
  destruct (composite_is_median Example.area [Example.june; Example.dark]
                                ["NDVI"] Example.ndvi_composite Hb)
    as (coll & Hc & Hv).
  destruct (Hv "NDVI" 30 (0, 0) (or_introl eq_refl) eq_refl) as (Hval & _).
  rewrite Hval.
  change (Ok [Example.june'; Example.dark'] = Ok coll) in Hc.
  injection Hc as <-. vm_compute. reflexivity.
Defined.

(** * Further properties of the script *)

(** ** The boundary lookup *)

Section BoundaryFacts.

Context {G : Type}.

Lemma filter_eq_adm1 value (f : Boundary.Feature G) :
  Boundary.Filter_eq "ADM1_NAME" value f = true <-> Boundary.ADM1_NAME f = value.
Proof. unfold Boundary.Filter_eq. cbn. apply String.eqb_eq. Qed.

Lemma filter_eq_adm2 value (f : Boundary.Feature G) :
  Boundary.Filter_eq "ADM2_NAME" value f = true <-> Boundary.ADM2_NAME f = value.
Proof. unfold Boundary.Filter_eq. cbn. apply String.eqb_eq. Qed.

Lemma hd_error_filter {A : Type} (f : A -> bool) (l : list A) (a : A) :
  hd_error (filter f l) = Some a <->
  exists pre post,
    l = pre ++ a :: post /\ f a = true /\ forall x, In x pre -> f x = false.
Proof.
  induction l as [|x l IH]; cbn.
  - split; [discriminate|]. intros (pre & post & E & _). now destruct pre.
  - destruct (f x) eqn:Hx; cbn.
    + split.
      * intros [= ->]. exists [], l. repeat split; [exact Hx|contradiction].
      * intros (pre & post & E & Ha & Hpre). destruct pre as [|y pre]; cbn in E.
        -- now injection E as ->.
        -- injection E as <- _. rewrite (Hpre x) in Hx by now left. discriminate.
    + rewrite IH. split.
      * intros (pre & post & -> & Ha & Hpre). exists (x :: pre), post.
        repeat split; [exact Ha|]. intros y [<-|Hy]; auto.
      * intros (pre & post & E & Ha & Hpre). destruct pre as [|y pre]; cbn in E.
        -- injection E as -> _. congruence.
        -- injection E as -> ->. exists pre, post.
           repeat split; [exact Ha|]. intros z Hz. apply Hpre. now right.
Qed.

(** X1: the county boundary is the geometry of the first row of the table,
    in table order, that is in Georgia and called Fulton; there is no
    boundary exactly when the table has no such row. *)
Theorem atlGeom_first_match (gbl2 : list (Boundary.Feature G)) :
  (forall g,
      Boundary.atlGeom gbl2 = Some g <->
      exists pre f post,
        gbl2 = pre ++ f :: post
        /\ in_georgia_fulton f
        /\ Boundary.geometry f = g
        /\ forall x, In x pre -> ~ in_georgia_fulton x)
  /\ (Boundary.atlGeom gbl2 = None <->
      forall x, In x gbl2 -> ~ in_georgia_fulton x).
Proof.
  unfold Boundary.atlGeom. rewrite filter_fuse.
  set (both := fun x : Boundary.Feature G =>
                 Boundary.Filter_eq "ADM1_NAME" "Georgia" x
                 && Boundary.Filter_eq "ADM2_NAME" "Fulton" x).
  assert (Hboth : forall x, both x = true <-> in_georgia_fulton x).
  { intros x. unfold both, in_georgia_fulton.
    now rewrite andb_true_iff, filter_eq_adm1, filter_eq_adm2. }
  assert (Hnot : forall x, both x = false <-> ~ in_georgia_fulton x).
  { intros x. rewrite <- Hboth. destruct (both x); split; congruence. }
  split.
  - intros g. split.
    + destruct (hd_error (filter both gbl2)) as [f|] eqn:E; cbn; [|discriminate].
      intros [= <-]. apply hd_error_filter in E.
      destruct E as (pre & post & -> & Hf & Hpre).
      exists pre, f, post. repeat split; try now apply Hboth.
      intros x Hx. apply Hnot. now apply Hpre.
    + intros (pre & f & post & -> & Hf & <- & Hpre).
      assert (E : hd_error (filter both (pre ++ f :: post)) = Some f).
      { apply hd_error_filter. exists pre, post.
        repeat split; [now apply Hboth|]. intros x Hx. apply Hnot. now apply Hpre. }
      now rewrite E.
  - split.
    + intros E x Hx Hm. apply Hboth in Hm.
      assert (Hin : In x (filter both gbl2)) by (apply filter_In; now split).
      destruct (filter both gbl2); [contradiction|discriminate].
    + intros Hnone.
      destruct (filter both gbl2) as [|f rest] eqn:E; [reflexivity|].
      exfalso. assert (Hin : In f (filter both gbl2)) by (rewrite E; now left).
      apply filter_In in Hin. destruct Hin as [Hin Hf].
      apply (Hnone f Hin). now apply Hboth.
Qed.

(** X2: the count of Fultons printed at line 17 bounds the lookup: when it
    is 0 there is no boundary, and when there is a boundary it is at least
    1; the two name filters of the lookup can be applied in either order. *)
Theorem fultons_bound_lookup (gbl2 : list (Boundary.Feature G)) :
  (Boundary.fultons gbl2 = 0%nat -> Boundary.atlGeom gbl2 = None)
  /\ (forall g, Boundary.atlGeom gbl2 = Some g -> (1 <= Boundary.fultons gbl2)%nat)
  /\ (List.length (filter (Boundary.Filter_eq "ADM2_NAME" "Fulton")
                          (filter (Boundary.Filter_eq "ADM1_NAME" "Georgia") gbl2))
      <= Boundary.fultons gbl2)%nat
  /\ filter (Boundary.Filter_eq "ADM2_NAME" "Fulton")
            (filter (Boundary.Filter_eq "ADM1_NAME" "Georgia") gbl2)
     = filter (Boundary.Filter_eq "ADM1_NAME" "Georgia")
              (filter (Boundary.Filter_eq "ADM2_NAME" "Fulton") gbl2).
Proof.
  assert (Hswap : filter (Boundary.Filter_eq "ADM2_NAME" "Fulton")
                    (filter (Boundary.Filter_eq "ADM1_NAME" "Georgia") gbl2)
                  = filter (Boundary.Filter_eq "ADM1_NAME" "Georgia")
                      (filter (Boundary.Filter_eq "ADM2_NAME" "Fulton") gbl2)).
  { rewrite !filter_fuse. apply filter_ext. intros x. apply andb_comm. }
  assert (Hle : (List.length (filter (Boundary.Filter_eq "ADM2_NAME" "Fulton")
                   (filter (Boundary.Filter_eq "ADM1_NAME" "Georgia") gbl2))
                 <= Boundary.fultons gbl2)%nat).
  { rewrite Hswap. unfold Boundary.fultons. apply filter_length_le. }
  unfold Boundary.atlGeom.
  split; [|split; [|split; [exact Hle|exact Hswap]]].
  - intros Hz. rewrite Hz in Hle.
    destruct (filter _ (filter _ gbl2)); [reflexivity|cbn in Hle; lia].
  - intros g Hg.
    destruct (filter _ (filter _ gbl2)); [discriminate|cbn in Hle; lia].
Qed.

End BoundaryFacts.

(** ** Failures of the derivations and of the collection *)

Section Failures.

Context {G : Type}.


Lemma derived_iff_raw_bands (raw : Image G) :
  (exists out, derived raw out) <-> has_raw_bands raw.
Proof.
  unfold derived, has_raw_bands. split.
  - intros (out & mid & H1 & H2).
    rewrite addNdvi_unfold in H1.
    destruct (find_band "SR_B5" (bands raw)) as [nir|] eqn:E5; [|discriminate].
    destruct (find_band "SR_B4" (bands raw)) as [red|] eqn:E4; [|discriminate].
    injection H1 as <-. rewrite addLST_unfold in H2. cbn [bands with_bands] in H2.
    rewrite find_band_snoc in H2.
    destruct (find_band "ST_B10" (bands raw)) as [t|] eqn:E10.
    + repeat split; discriminate.
    + rewrite eqb_first_char in H2; [discriminate|].
      rewrite unique_name_first_char. cbn. congruence.
  - intros (H5 & H4 & H10).
    destruct (find_band "SR_B5" (bands raw)) as [nir|] eqn:E5; [|contradiction].
    destruct (find_band "SR_B4" (bands raw)) as [red|] eqn:E4; [|contradiction].
    destruct (find_band "ST_B10" (bands raw)) as [t|] eqn:E10; [|contradiction].
    eexists. eexists. split.
    + rewrite addNdvi_unfold, E5, E4. reflexivity.
    + rewrite addLST_unfold. cbn [bands with_bands].
      rewrite (find_band_app _ _ _ _ E10). reflexivity.
Qed.

Lemma mapM_Forall2_ok {A B : Type} (f : A -> result B) (l : list A) (l' : list B) :
  Forall2 (fun a b => f a = Ok b) l l' -> mapM f l = Ok l'.
Proof.
  induction 1 as [|a b l l' Hab _ IH]; cbn; [reflexivity|].
  now rewrite Hab, IH.
Qed.

Lemma mapM_err_in {A B : Type} (f : A -> result B) (l : list A) (e : Error) :
  mapM f l = Err e -> exists a, In a l /\ f a = Err e.
Proof.
  induction l as [|a l IH]; cbn; [discriminate|].
  destruct (f a) as [b|e'] eqn:Ha; cbn.
  - destruct (mapM f l) as [bs|e'']; cbn; [discriminate|].
    intros [= <-]. destruct (IH eq_refl) as (x & Hx & Hfx). exists x. auto.
  - intros [= <-]. exists a. auto.
Qed.

End Failures.

Section CollectionSuccess.

Context {G : Type} `{Geometry G}.
Variable atlGeom : G.
Variable archive : list (Image G).

Lemma derived_landsatCollection (coll : list (Image G)) :
  Forall2 derived (filtered atlGeom archive) coll ->
  landsatCollection atlGeom archive = Ok coll.
Proof.
  unfold landsatCollection, EE.map. intros Hd.
  assert (Hm : exists mids,
             Forall2 (fun a b => addNdvi a = Ok b) (filtered atlGeom archive) mids
             /\ Forall2 (fun a b => addLST a = Ok b) mids coll).
  { induction Hd as [|raw out raws outs (mid & H1 & H2) _ (mids & IH1 & IH2)].
    - exists []. split; constructor.
    - exists (mid :: mids). split; constructor; assumption. }
  destruct Hm as (mids & H1 & H2).
  rewrite (mapM_Forall2_ok _ _ _ H1). cbn [bind]. now apply mapM_Forall2_ok.
Qed.

(** X4: the collection is built exactly when every scene that passes the
    three filters has the bands SR_B5, SR_B4 and ST_B10; scenes that the
    filters drop are never looked at, and a failure names one of these three
    bands. *)
Theorem landsatCollection_succeeds_iff :
  ((exists coll, landsatCollection atlGeom archive = Ok coll) <->
   forall i, In i (filtered atlGeom archive) -> has_raw_bands i)
  /\ (forall e,
         landsatCollection atlGeom archive = Err e ->
         e = BandNotFound "SR_B5" \/ e = BandNotFound "SR_B4"
         \/ e = BandNotFound "ST_B10").
Proof.
  split.
  - split.
    + intros (coll & Hc) i Hi. apply landsatCollection_derived in Hc.
      induction Hc as [|raw out raws outs Hd _ IH]; [contradiction|].
      destruct Hi as [<-|Hi]; [|now apply IH].
      apply derived_iff_raw_bands. now exists out.
    + intros Hall.
      assert (Hex : exists coll, Forall2 derived (filtered atlGeom archive) coll).
      { induction (filtered atlGeom archive) as [|raw raws IH].
        - exists []. constructor.
        - destruct IH as (outs & Houts); [intros i Hi; apply Hall; now right|].
          destruct (proj2 (derived_iff_raw_bands raw) (Hall raw (or_introl eq_refl)))
            as (out & Hout).
          exists (out :: outs). now constructor. }
      destruct Hex as (coll & Hd). exists coll. now apply derived_landsatCollection.
  - intros e. unfold landsatCollection, EE.map.
    destruct (mapM addNdvi (filtered atlGeom archive)) as [mids|e'] eqn:E1; cbn [bind].
    + intros E2. apply mapM_err_in in E2. destruct E2 as (a & _ & Ha).
      rewrite addLST_unfold in Ha.
      destruct (find_band "ST_B10" (bands a)); [discriminate|].
      injection Ha as <-. auto.
    + intros [= <-]. apply mapM_err_in in E1. destruct E1 as (a & _ & Ha).
      rewrite addNdvi_unfold in Ha.
      destruct (find_band "SR_B5" (bands a)); [|injection Ha as <-; auto].
      destruct (find_band "SR_B4" (bands a)); [discriminate|].
      injection Ha as <-. auto.
Qed.

End CollectionSuccess.

(** ** Band names and band values through the derivations *)

Section NamesAndValues.

Context {G : Type}.

Lemma name_taken_false_not_in n used :
  EE.name_taken n used = false -> ~ In n used.
Proof.
  unfold EE.name_taken. intros Hf Hin.
  assert (Ht : existsb (String.eqb n) used = true).
  { apply existsb_exists. exists n. split; [exact Hin|apply String.eqb_refl]. }
  congruence.
Qed.

Lemma freshen_free base used fuel k :
  (forall j, (1 <= j < k)%nat -> EE.name_taken (candidate base j) used = true) ->
  (fuel + k = S (List.length used))%nat ->
  EE.name_taken (EE.freshen fuel k used base) used = false.
Proof.
  revert k. induction fuel as [|fuel IH]; intros k Hall Hk.
  - cbn [EE.freshen]. fold (candidate base k).
    apply candidate_free; [exact Hall|lia].
  - cbn [EE.freshen]. fold (candidate base k).
    destruct (EE.name_taken (candidate base k) used) eqn:Hk'; [|exact Hk'].
    apply IH; [|lia].
    intros j Hj. destruct (Nat.eq_dec j k) as [->|Hne]; [exact Hk'|apply Hall; lia].
Qed.

(** The name [addBands] gives a band is never one that is in use. *)
Lemma unique_name_free used base :
  EE.name_taken (EE.unique_name used base) used = false.
Proof.
  unfold EE.unique_name.
  destruct (EE.name_taken base used) eqn:E; [|exact E].
  apply freshen_free; [intros j Hj; lia|lia].
Qed.

Lemma names_stay_distinct (bs : list Band) base r :
  NoDup (map fst bs) ->
  NoDup (map fst (bs ++ [(EE.unique_name (map fst bs) base, r)])).
Proof.
  intros Hnd. rewrite map_app. cbn [map fst].
  apply (Permutation_NoDup (Permutation_cons_append _ _)).
  constructor; [|exact Hnd].
  apply name_taken_false_not_in, unique_name_free.
Qed.

(** X5: the derivations never reuse a band name: the name of the band a
    derivation adds is not a name of its input, so a scene whose band names
    are distinct keeps distinct band names through [addNdvi], [addLST] and
    the two in sequence. *)
Theorem derivations_keep_names_distinct (image out : Image G) :
  addNdvi image = Ok out \/ addLST image = Ok out \/ derived image out ->
  (exists added,
      band_names out = band_names image ++ added
      /\ forall n, In n added -> ~ In n (band_names image))
  /\ (NoDup (band_names image) -> NoDup (band_names out)).
Proof.
  assert (Hstep : forall (i o : Image G) base,
             (exists r, bands o = bands i ++ [(EE.unique_name (band_names i) base, r)]) ->
             band_names o = band_names i ++ [EE.unique_name (band_names i) base]
             /\ ~ In (EE.unique_name (band_names i) base) (band_names i)
             /\ (NoDup (band_names i) -> NoDup (band_names o))).
  { intros i o base [r Hb]. unfold band_names. rewrite Hb.
    split; [now rewrite map_app|]. split.
    - apply name_taken_false_not_in, unique_name_free.
    - apply names_stay_distinct. }
  intros [Hn|[Hl|(mid & Hn & Hl)]].
  - destruct (Hstep image out "NDVI" (proj1 (addNdvi_appends _ _ Hn))) as (E & Hfree & Hnd).
    split; [|exact Hnd]. eexists. split; [exact E|]. intros n [<-|[]]. exact Hfree.
  - destruct (Hstep image out "LST" (proj1 (addLST_appends _ _ Hl))) as (E & Hfree & Hnd).
    split; [|exact Hnd]. eexists. split; [exact E|]. intros n [<-|[]]. exact Hfree.
  - destruct (Hstep image mid "NDVI" (proj1 (addNdvi_appends _ _ Hn))) as (E1 & F1 & N1).
    destruct (Hstep mid out "LST" (proj1 (addLST_appends _ _ Hl))) as (E2 & F2 & N2).
    split; [|auto]. eexists. split.
    + rewrite E2, E1, <- app_assoc. reflexivity.
    + cbn [app]. intros n [<-|[<-|[]]]; [exact F1|].
      intros Hin. apply F2. rewrite E1. apply in_or_app. now left.
Qed.

Lemma addNdvi_sample (image out : Image G) :
  addNdvi image = Ok out ->
  find_band "NDVI" (bands image) = None ->
  band_names out = band_names image ++ ["NDVI"]
  /\ forall scale p,
       sample out "NDVI" scale p =
       match sample image "SR_B5" scale p, sample image "SR_B4" scale p with
       | Some n, Some r => Some (ndvi_value n r)
       | _, _ => None
       end.
Proof.
  intros Hrun Hfree. rewrite addNdvi_unfold in Hrun.
  unfold sample, band_value.
  destruct (find_band "SR_B5" (bands image)) as [nir|]; [|discriminate].
  destruct (find_band "SR_B4" (bands image)) as [red|]; [|discriminate].
  injection Hrun as <-. unfold band_names, EE.unique_name. cbn [bands with_bands].
  fold (band_names image). unfold band_names.
  rewrite (name_taken_find _ _ Hfree). split; [now rewrite map_app|].
  intros scale p. rewrite (find_band_last _ _ _ Hfree).
  unfold ndvi_of, EE.lift1, EE.lift2, ndvi_value.
  destruct (nir scale p); [|reflexivity]. destruct (red scale p); reflexivity.
Qed.

Lemma addLST_sample (image out : Image G) :
  addLST image = Ok out ->
  find_band "LST" (bands image) = None ->
  band_names out = band_names image ++ ["LST"]
  /\ forall scale p,
       sample out "LST" scale p = option_map lst_value (sample image "ST_B10" scale p).
Proof.
  intros Hrun Hfree. rewrite addLST_unfold in Hrun.
  unfold sample, band_value.
  destruct (find_band "ST_B10" (bands image)) as [t|]; [|discriminate].
  injection Hrun as <-. unfold band_names, EE.unique_name. cbn [bands with_bands].
  rewrite (name_taken_find _ _ Hfree). split; [now rewrite map_app|].
  intros scale p. rewrite (find_band_last _ _ _ Hfree).
  unfold lst_of, EE.lift1, lst_value.
  destruct (t scale p); reflexivity.
Qed.

(** What the two derivations in sequence make of a scene that has no band
    called NDVI or LST. *)
Lemma derived_samples (raw out : Image G) :
  derived raw out ->
  find_band "NDVI" (bands raw) = None ->
  find_band "LST" (bands raw) = None ->
  band_names out = band_names raw ++ ["NDVI"; "LST"]
  /\ (forall scale p,
         sample out "NDVI" scale p =
         match sample raw "SR_B5" scale p, sample raw "SR_B4" scale p with
         | Some n, Some r => Some (ndvi_value n r)
         | _, _ => None
         end)
  /\ (forall scale p,
         sample out "LST" scale p = option_map lst_value (sample raw "ST_B10" scale p))
  /\ (forall name scale p,
         find_band name (bands raw) <> None ->
         sample out name scale p = sample raw name scale p).
Proof.
  intros (mid & H1 & H2) HN HL.
  destruct (addNdvi_sample raw mid H1 HN) as [En Hn].
  destruct (addNdvi_appends _ _ H1) as [[r1 Hb1] _].
  destruct (addLST_appends _ _ H2) as [[r2 Hb2] _].
  assert (HLmid : find_band "LST" (bands mid) = None).
  { rewrite Hb1, find_band_snoc, HL.
    rewrite eqb_first_char; [reflexivity|].
    rewrite unique_name_first_char. cbn. congruence. }
  destruct (addLST_sample mid out H2 HLmid) as [El Hl].
  assert (Hkeep : forall name (i o : Image G) b,
             bands o = bands i ++ [b] ->
             find_band name (bands i) <> None ->
             forall scale p, sample o name scale p = sample i name scale p).
  { intros name i o b Hb Hfound scale p. unfold sample, band_value.
    rewrite Hb, find_band_app_none_or.
    destruct (find_band name (bands i)); [reflexivity|contradiction]. }
  split; [|split; [|split]].
  - rewrite El, En, <- app_assoc. reflexivity.
  - intros scale p. rewrite <- Hn.
    apply (Hkeep "NDVI" mid out _ Hb2).
    rewrite Hb1, find_band_snoc, HN.
    unfold EE.unique_name. fold (band_names raw). unfold band_names.
    rewrite (name_taken_find _ _ HN). discriminate.
  - intros scale p. rewrite Hl. f_equal.
    apply (Hkeep "ST_B10" raw mid _ Hb1).
    rewrite addLST_unfold in H2. rewrite Hb1, find_band_snoc in H2.
    destruct (find_band "ST_B10" (bands raw)); [discriminate|].
    rewrite eqb_first_char in H2; [discriminate|].
    rewrite unique_name_first_char. cbn. congruence.
  - intros name scale p Hfound.
    rewrite (Hkeep name mid out _ Hb2).
    + now apply (Hkeep name raw mid _ Hb1).
    + rewrite Hb1, find_band_app_none_or.
      destruct (find_band name (bands raw)); [discriminate|contradiction].
Qed.

(** X7: [addNdvi] does not overwrite.  Applied twice to a scene with no
    band called NDVI or NDVI_1, it leaves two bands NDVI and NDVI_1 that
    carry the same raster, after the bands of the scene. *)
Theorem addNdvi_twice (image once twice : Image G) :
  find_band "NDVI" (bands image) = None ->
  find_band "NDVI_1" (bands image) = None ->
  addNdvi image = Ok once ->
  addNdvi once = Ok twice ->
  exists r, bands twice = bands image ++ [("NDVI", r); ("NDVI_1", r)].
Proof.
  intros HN HN1 H1 H2. rewrite addNdvi_unfold in H1.
  destruct (find_band "SR_B5" (bands image)) as [nir|] eqn:E5; [|discriminate].
  destruct (find_band "SR_B4" (bands image)) as [red|] eqn:E4; [|discriminate].
  injection H1 as <-. rewrite addNdvi_unfold in H2. cbn [bands with_bands] in H2.
  rewrite (find_band_app _ _ _ _ E5), (find_band_app _ _ _ _ E4) in H2.
  injection H2 as <-. exists (ndvi_of nir red). cbn [bands with_bands].
  rewrite <- app_assoc. cbn [app]. do 2 f_equal.
  - unfold EE.unique_name. fold (band_names image). unfold band_names.
    now rewrite (name_taken_find _ _ HN).
  - f_equal. f_equal. unfold band_names. cbn [bands with_bands].
    unfold EE.unique_name at 2. fold (band_names image). unfold band_names.
    rewrite (name_taken_find _ _ HN).
    unfold EE.unique_name. rewrite map_app. cbn [map fst].
    rewrite name_taken_app, String.eqb_refl, orb_true_r.
    rewrite length_app. cbn [List.length]. rewrite Nat.add_1_r.
    cbn [EE.freshen].
    change ("NDVI" ++ "_" ++ EE.decimal 1)%string with "NDVI_1".
    rewrite name_taken_app.
    replace (EE.name_taken "NDVI_1" _) with false
      by (symmetry; exact (name_taken_find _ _ HN1)).
    reflexivity.
Qed.

End NamesAndValues.

(** ** The NDVI and LST values *)

Section ValueFacts.

Local Open Scope Q_scope.

Lemma divide_nonzero a b : ~ b == 0 -> EE.divide a b = a / b.
Proof. intros Hb. unfold EE.divide. now rewrite (Qeq_bool_false _ _ Hb). Qed.

Lemma divide_zero a b : b == 0 -> EE.divide a b = 0.
Proof.
  intros Hb. unfold EE.divide. apply Qeq_bool_iff in Hb. now rewrite Hb.
Qed.

Lemma quotient_times a b : ~ b == 0 -> a / b * b == a.
Proof. intros Hb. field. exact Hb. Qed.

Lemma ndvi_value_bounds n r :
  0 <= n -> 0 <= r -> -100 <= ndvi_value n r /\ ndvi_value n r <= 100.
Proof.
  intros Hn Hr. unfold ndvi_value.
  destruct (Qeq_dec (n + r) 0) as [Hz|Hnz].
  - rewrite (divide_zero _ _ Hz). split; lra.
  - rewrite (divide_nonzero _ _ Hnz).
    assert (Hpos : 0 < n + r).
    { destruct (Qlt_le_dec 0 (n + r)) as [Hlt|Hle]; [exact Hlt|].
      exfalso. apply Hnz. lra. }
    assert (Hlo : -1 <= (n - r) / (n + r)) by (apply Qle_shift_div_l; lra).
    assert (Hhi : (n - r) / (n + r) <= 1) by (apply Qle_shift_div_r; lra).
    split; lra.
Qed.

Lemma ndvi_value_sign n r :
  0 < n + r ->
  (0 < ndvi_value n r <-> r < n) /\ (ndvi_value n r == 0 <-> n == r).
Proof.
  intros Hpos. unfold ndvi_value.
  rewrite divide_nonzero by lra.
  pose proof (quotient_times (n - r) (n + r)) as Hq.
  set (q := (n - r) / (n + r)) in *.
  assert (Hq' : q * (n + r) == n - r) by (apply Hq; lra).
  split; split; intros Hx.
  - assert (0 < q) by lra.
    assert (0 < q * (n + r)) by (apply Qmult_lt_0_compat; assumption). lra.
  - assert (0 < q); [|lra].
    destruct (Qlt_le_dec 0 q) as [Hlt|Hle]; [exact Hlt|].
    exfalso. assert (q * (n + r) <= 0); [|lra].
    setoid_replace (q * (n + r)) with (- ((- q) * (n + r))) by ring.
    assert (0 <= (- q) * (n + r)) by (apply Qmult_le_0_compat; lra). lra.
  - assert (Hz : q == 0) by lra. rewrite Hz in Hq'. lra.
  - assert (Hz : q * (n + r) == 0) by lra.
    apply Qmult_integral in Hz. destruct Hz as [Hz|Hz]; lra.
Qed.

Lemma ndvi_value_swap n r : ndvi_value r n == - ndvi_value n r.
Proof.
  unfold ndvi_value. destruct (Qeq_dec (n + r) 0) as [Hz|Hnz].
  - rewrite (divide_zero _ _ Hz), (divide_zero (r - n) (r + n)) by lra. ring.
  - rewrite (divide_nonzero _ _ Hnz), (divide_nonzero (r - n) (r + n)) by lra.
    field. lra.
Qed.



End ValueFacts.

Section DerivedValues.

Context {G : Type}.

(** X8: for non-negative reflectances the NDVI band stays in the range
    [-100, 100] that the NDVI layer is displayed on (lines 114-120); where
    NIR + RED is positive it is positive exactly where NIR exceeds RED and 0
    exactly where they are equal. *)
Theorem ndvi_range (image out : Image G) (scale : Z) (p : Pixel) (n r : Q) :
  addNdvi image = Ok out ->
  find_band "NDVI" (bands image) = None ->
  sample image "SR_B5" scale p = Some n ->
  sample image "SR_B4" scale p = Some r ->
  (0 <= n)%Q -> (0 <= r)%Q ->
  exists v,
    sample out "NDVI" scale p = Some v
    /\ (-100 <= v)%Q /\ (v <= 100)%Q
    /\ ((0 < n + r)%Q ->
        ((0 < v)%Q <-> (r < n)%Q) /\ ((v == 0)%Q <-> (n == r)%Q)).
Proof.
  intros Hrun Hfree Hn Hr Hn0 Hr0.
  destruct (addNdvi_sample image out Hrun Hfree) as [_ Hs].
  exists (ndvi_value n r). rewrite Hs, Hn, Hr.
  split; [reflexivity|].
  destruct (ndvi_value_bounds n r Hn0 Hr0) as [Hlo Hhi].
  split; [exact Hlo|]. split; [exact Hhi|]. apply ndvi_value_sign.
Qed.

(** X9: exchanging the NIR and RED values of a pixel negates its NDVI. *)
Theorem ndvi_antisymmetric (image image' out out' : Image G) (scale : Z) (p : Pixel) :
  addNdvi image = Ok out ->
  addNdvi image' = Ok out' ->
  find_band "NDVI" (bands image) = None ->
  find_band "NDVI" (bands image') = None ->
  sample image' "SR_B5" scale p = sample image "SR_B4" scale p ->
  sample image' "SR_B4" scale p = sample image "SR_B5" scale p ->
  value_eq (sample out' "NDVI" scale p)
           (option_map Qopp (sample out "NDVI" scale p)).
Proof.
  intros Hrun Hrun' Hfree Hfree' H5 H4.
  destruct (addNdvi_sample image out Hrun Hfree) as [_ Hs].
  destruct (addNdvi_sample image' out' Hrun' Hfree') as [_ Hs'].
  rewrite Hs, Hs', H5, H4.
  destruct (sample image "SR_B5" scale p) as [n|];
    destruct (sample image "SR_B4" scale p) as [r|]; cbn; trivial.
  apply ndvi_value_swap.
Qed.



End DerivedValues.

Section CollectionValues.

Context {G : Type} `{Geometry G}.
Variable atlGeom : G.
Variable archive : list (Image G).

Lemma Forall2_nth_error {A B : Type} (R : A -> B -> Prop) l l' k a :
  Forall2 R l l' -> nth_error l k = Some a ->
  exists b, nth_error l' k = Some b /\ R a b.
Proof.
  intros HF. revert k. induction HF as [|x y l l' Hxy _ IH]; intros k.
  - destruct k; discriminate.
  - destruct k as [|k]; cbn.
    + intros [= <-]. now exists y.
    + apply IH.
Qed.

(** X6: in the collection the script builds, the scene at each position
    comes from the filtered scene at the same position; when that scene has
    no band called NDVI or LST of its own, the new scene has its bands
    followed by NDVI and LST, reads NDVI and LST as the two formulas applied
    to the raw bands of the same scene (LST does not see the NDVI band added
    before it), and reads every raw band unchanged. *)
Theorem landsatCollection_values (coll : list (Image G)) (k : nat) (raw : Image G) :
  landsatCollection atlGeom archive = Ok coll ->
  nth_error (filtered atlGeom archive) k = Some raw ->
  find_band "NDVI" (bands raw) = None ->
  find_band "LST" (bands raw) = None ->
  exists out,
    nth_error coll k = Some out
    /\ time_start out = time_start raw
    /\ band_names out = band_names raw ++ ["NDVI"; "LST"]
    /\ (forall scale p,
           sample out "NDVI" scale p =
           match sample raw "SR_B5" scale p, sample raw "SR_B4" scale p with
           | Some n, Some r => Some (ndvi_value n r)
           | _, _ => None
           end)
    /\ (forall scale p,
           sample out "LST" scale p
           = option_map lst_value (sample raw "ST_B10" scale p))
    /\ (forall name scale p,
           find_band name (bands raw) <> None ->
           sample out name scale p = sample raw name scale p).
Proof.
  intros Hc Hk HN HL. apply landsatCollection_derived in Hc.
  destruct (Forall2_nth_error _ _ _ _ _ Hc Hk) as (out & Hout & Hd).
  exists out. split; [exact Hout|].
  destruct (derived_facts _ _ Hd) as (_ & _ & Ht). split; [exact Ht|].
  now apply derived_samples.
Qed.

End CollectionValues.

(** ** The filtered collection, by parts *)

Section FilterFacts.

Context {G : Type} `{Geometry G}.
Variable atlGeom : G.

Lemma filtered_is_filter (archive : list (Image G)) :
  filtered atlGeom archive = filter (passes atlGeom) archive.
Proof.
  unfold filtered, EE.filterDate, EE.filterBounds, passes.
  now rewrite !filter_fuse.
Qed.

Lemma filter_idempotent {A : Type} (f : A -> bool) (l : list A) :
  filter f (filter f l) = filter f l.
Proof.
  rewrite filter_fuse. apply filter_ext. intros a. now destruct (f a).
Qed.

(** X12: filtering is idempotent and works part by part: filtering a
    filtered archive changes nothing, and the filtered concatenation of two
    archives is the concatenation of the two filtered archives. *)
Theorem filtered_by_parts (a b : list (Image G)) :
  filtered atlGeom (filtered atlGeom a) = filtered atlGeom a
  /\ filtered atlGeom (a ++ b) = filtered atlGeom a ++ filtered atlGeom b
  /\ (List.length (filtered atlGeom a) <= List.length a)%nat.
Proof.
  rewrite !filtered_is_filter. split; [apply filter_idempotent|].
  split; [apply filter_app|apply filter_length_le].
Qed.

(** X13: the collection of an archive given in two parts is the collection
    of the first part followed by the collection of the second: it is built
    for the whole exactly when it is built for both parts. *)
Theorem landsatCollection_by_parts (a b : list (Image G)) :
  (forall ca cb,
      landsatCollection atlGeom a = Ok ca ->
      landsatCollection atlGeom b = Ok cb ->
      landsatCollection atlGeom (a ++ b) = Ok (ca ++ cb))
  /\ (forall c,
         landsatCollection atlGeom (a ++ b) = Ok c ->
         exists ca cb,
           c = ca ++ cb
           /\ landsatCollection atlGeom a = Ok ca
           /\ landsatCollection atlGeom b = Ok cb).
Proof.
  assert (Happ : filtered atlGeom (a ++ b)
                 = filtered atlGeom a ++ filtered atlGeom b).
  { rewrite !filtered_is_filter. apply filter_app. }
  split.
  - intros ca cb Ha Hb. apply derived_landsatCollection. rewrite Happ.
    apply Forall2_app; now apply landsatCollection_derived.
  - intros c Hc. apply landsatCollection_derived in Hc. rewrite Happ in Hc.
    apply Forall2_app_inv_l in Hc. destruct Hc as (ca & cb & Ha & Hb & ->).
    exists ca, cb. split; [reflexivity|].
    split; now apply derived_landsatCollection.
Qed.

(** X14: the date window of the script, in milliseconds since the epoch:
    every scene of the filtered collection was captured from
    2014-01-01T00:00 up to the last millisecond of 2023-12-30 and has cloud
    cover strictly below 15; no scene captured on 2023-12-31 or later is
    kept, so the window is 3651 days long, one day short of the ten years
    2014-2023. *)
Theorem collection_window (archive : list (Image G)) :
  (forall i,
      In i (filtered atlGeom archive) ->
      1388534400000 <= time_start i <= 1703980799999
      /\ (CLOUD_COVER i < 15)%Q)
  /\ (forall i, 1703980800000 <= time_start i -> ~ In i (filtered atlGeom archive))
  /\ (forall i, (15 <= CLOUD_COVER i)%Q -> ~ In i (filtered atlGeom archive))
  /\ EE.Date 2023 12 31 - EE.Date 2014 1 1 = 3651 * 86400000
  /\ EE.Date 2024 1 1 - EE.Date 2014 1 1 = 3652 * 86400000.
Proof.
  assert (Hin : forall i,
             In i (filtered atlGeom archive) ->
             1388534400000 <= time_start i < 1703980800000
             /\ (CLOUD_COVER i < 15)%Q).
  { intros i Hi. rewrite filtered_is_filter in Hi. apply filter_In in Hi.
    destruct Hi as [_ Hp]. unfold passes in Hp.
    rewrite !andb_true_iff, Z.leb_le, Z.ltb_lt, lt_cloud_cover in Hp.
    change (EE.Date 2014 1 1) with 1388534400000 in Hp.
    change (EE.Date 2023 12 31) with 1703980800000 in Hp. tauto. }
  split; [|split; [|split; [|split; reflexivity]]].
  - intros i Hi. destruct (Hin i Hi). split; [lia|assumption].
  - intros i Ht Hi. destruct (Hin i Hi). lia.
  - intros i Hcc Hi. destruct (Hin i Hi) as [_ Hlt].
    apply (Qlt_irrefl 15). eapply Qle_lt_trans; eassumption.
Qed.

End FilterFacts.

(** ** The composites *)

Section CompositeFacts.

Context {G : Type} `{Geometry G}.
Variable atlGeom : G.
Variable archive : list (Image G).

Lemma clip_value (bs : list Band) (g : G) n scale p :
  band_value (EE.clip bs g) n scale p =
  if inside g scale p then band_value bs n scale p else None.
Proof.
  unfold band_value, EE.clip.
  induction bs as [|[m r] bs IH]; cbn.
  - now destruct (inside g scale p).
  - destruct (String.eqb m n); [reflexivity|exact IH].
Qed.

Lemma composite_shape names bs :
  composite atlGeom archive names = Ok bs ->
  exists coll,
    landsatCollection atlGeom archive = Ok coll
    /\ (forall i n, In i coll -> In n names -> find_band n (bands i) <> None)
    /\ bs = EE.clip (EE.median (map (picked names) coll)) atlGeom.
Proof.
  unfold composite.
  destruct (landsatCollection atlGeom archive) as [coll|]; cbn [bind]; [|discriminate].
  destruct (EE.selectAll names coll) as [s|] eqn:Hs; cbn [bind]; [|discriminate].
  intros [= <-]. exists coll. split; [reflexivity|]. split.
  - unfold EE.selectAll in Hs. apply mapM_Forall2 in Hs.
    induction Hs as [|i si coll s Hi _ IH]; [contradiction|].
    intros j n [<-|Hj] Hn; [now apply (select_found names i si)|now apply IH].
  - apply selectAll_inv in Hs. now subst s.
Qed.

(** X15: a composite carries nothing outside the county: every band of it
    is masked at every pixel that is not inside the clip region; and when
    the collection is not empty, its bands are the requested ones, in the
    order asked for. *)
Theorem composite_clipped (names : list string) (bs : list Band) :
  composite atlGeom archive names = Ok bs ->
  (forall n scale p, inside atlGeom scale p = false -> band_value bs n scale p = None)
  /\ (forall coll,
         landsatCollection atlGeom archive = Ok coll ->
         (coll = [] -> bs = []) /\ (coll <> [] -> map fst bs = names)).
Proof.
  intros Hb. destruct (composite_shape names bs Hb) as (coll & Hc & _ & ->).
  split.
  - intros n scale p Hout. now rewrite clip_value, Hout.
  - intros coll' Hc'. rewrite Hc in Hc'. injection Hc' as <-. split.
    + intros ->. reflexivity.
    + intros Hne. destruct coll as [|first rest]; [contradiction|].
      unfold EE.clip, EE.median. cbn [map]. rewrite !map_map. cbn [fst].
      unfold band_names, picked. cbn [bands with_bands].
      rewrite !map_map. cbn [fst]. apply map_id.
Qed.

Lemma Forall2_in_r {A B : Type} (R : A -> B -> Prop) l l' b :
  Forall2 R l l' -> In b l' -> exists a, In a l /\ R a b.
Proof.
  induction 1 as [|x y l l' Hxy _ IH]; [contradiction|].
  intros [<-|Hb].
  - exists x. split; [now left|exact Hxy].
  - destruct (IH Hb) as (a & Ha & Hab). exists a. split; [now right|exact Hab].
Qed.

Lemma derived_find_raw (raw out : Image G) (s : string) :
  derived raw out ->
  find_band (String "S" s) (bands out) = find_band (String "S" s) (bands raw).
Proof.
  intros (mid & H1 & H2).
  destruct (addNdvi_appends _ _ H1) as [[r1 Hb1] _].
  destruct (addLST_appends _ _ H2) as [[r2 Hb2] _].
  rewrite Hb2, find_band_snoc, Hb1, find_band_snoc.
  rewrite !eqb_first_char by (rewrite unique_name_first_char; cbn; congruence).
  now destruct (find_band (String "S" s) (bands raw)).
Qed.

(** X16: once the collection is built, the NDVI and LST composites are
    always built, and a composite of other bands is built exactly when every
    scene of the collection has them; the true-colour composite is built
    exactly when every filtered scene has the bands SR_B3 and SR_B2. *)
Theorem composites_succeed (coll : list (Image G)) :
  landsatCollection atlGeom archive = Ok coll ->
  (exists bs, ndviImage atlGeom archive = Ok bs)
  /\ (exists bs, lstImage atlGeom archive = Ok bs)
  /\ (forall names,
         (exists bs, composite atlGeom archive names = Ok bs) <->
         forall i n, In i coll -> In n names -> find_band n (bands i) <> None)
  /\ ((exists bs, trueColorImage atlGeom archive = Ok bs) <->
      forall raw, In raw (filtered atlGeom archive) ->
                  find_band "SR_B3" (bands raw) <> None
                  /\ find_band "SR_B2" (bands raw) <> None).
Proof.
  intros Hc.
  assert (Hiff : forall names,
             (exists bs, composite atlGeom archive names = Ok bs) <->
             forall i n, In i coll -> In n names -> find_band n (bands i) <> None).
  { intros names. split.
    - intros (bs & Hb). destruct (composite_shape names bs Hb) as (coll' & Hc' & Hall & _).
      rewrite Hc in Hc'. injection Hc' as <-. exact Hall.
    - intros Hall. unfold composite. rewrite Hc. cbn [bind].
      rewrite (selectAll_picked names coll Hall). cbn [bind]. eauto. }
  split; [|split; [|split; [exact Hiff|]]].
  - apply Hiff. intros i n Hi [<-|[]].
    apply (landsatCollection_bands atlGeom archive coll i Hc Hi).
  - apply Hiff. intros i n Hi [<-|[]].
    apply (landsatCollection_bands atlGeom archive coll i Hc Hi).
  - unfold trueColorImage. rewrite Hiff.
    pose proof (landsatCollection_derived atlGeom archive coll Hc) as Hd.
    split.
    + intros Hall raw Hraw.
      apply In_nth_error in Hraw. destruct Hraw as [k Hk].
      destruct (Forall2_nth_error _ _ _ _ _ Hd Hk) as (out & Hout & Hdo).
      apply nth_error_In in Hout.
      rewrite <- !(derived_find_raw raw out _ Hdo).
      split; apply Hall; cbn; auto.
    + intros Hall i n Hi Hn.
      assert (Hraw : exists raw, In raw (filtered atlGeom archive) /\ derived raw i).
      { exact (Forall2_in_r _ _ _ _ Hd Hi). }
      destruct Hraw as (raw & Hraw & Hdo).
      destruct (Hall raw Hraw) as [H3 H2].
      destruct Hn as [<-|[<-|[<-|[]]]].
      * rewrite (derived_find_raw raw i _ Hdo).
        destruct (proj1 (derived_iff_raw_bands raw) (ex_intro _ i Hdo)) as (_ & H4 & _).
        exact H4.
      * now rewrite (derived_find_raw raw i _ Hdo).
      * now rewrite (derived_find_raw raw i _ Hdo).
Qed.

End CompositeFacts.

(** ** The LST composite and the thermal band *)

Section ThermalMedian.






Context {G : Type} `{Geometry G}.
Variable atlGeom : G.
Variable archive : list (Image G).




End ThermalMedian.

(** ** The correlation and the conversion to degrees Celsius *)

Section AffineInvariance.

Local Open Scope Q_scope.




Lemma dev_square_nonneg (f : Q * Q -> Q) (ps : list (Q * Q)) : 0 <= EE.dev f f ps.
Proof.
  unfold EE.dev. set (m := EE.mean_Q (map f ps)). clearbody m.
  induction ps as [|p ps IH]; cbn [map EE.Qsum fold_right]; [lra|].
  fold (EE.Qsum (map (fun p => (f p - m) * (f p - m)) ps)).
  pose proof (Qsquare_nonneg (f p - m)). lra.
Qed.


End AffineInvariance.

Section ThermalCorrelation.

Context {G : Type} `{Geometry G}.
Variable atlGeom : G.
Variable archive : list (Image G).




End ThermalCorrelation.

(** ** More concrete runs *)

(** The June scene keeps distinct band names through both derivations. *)
Lemma derivations_keep_names_distinct_witness :
  NoDup (band_names Example.june').
Proof.
  assert (Hd : derived Example.june Example.june')
    by (eexists; split; reflexivity).
  destruct (derivations_keep_names_distinct Example.june Example.june'
              (or_intror (or_intror Hd))) as [_ Hnd].
  apply Hnd. cbn. repeat constructor; cbn; intuition discriminate.
Defined.

(** The dark scene, second of the filtered scenes: its LST in the
    collection. *)
Lemma landsatCollection_values_witness :
  exists out,
    nth_error [Example.june'; Example.dark'] 1 = Some out
    /\ band_names out = ["SR_B4"; "SR_B5"; "ST_B10"; "NDVI"; "LST"]
    /\ sample out "LST" 30 (0, 0) = Some (lst_value 30000).
Proof.
  assert (Hc : landsatCollection Example.area
                 [Example.june; Example.hazy; Example.dark]
               = Ok [Example.june'; Example.dark']) by reflexivity.
  assert (Hk : nth_error (filtered Example.area
                            [Example.june; Example.hazy; Example.dark]) 1
               = Some Example.dark) by reflexivity.
  destruct (landsatCollection_values Example.area
              [Example.june; Example.hazy; Example.dark]
              [Example.june'; Example.dark'] 1 Example.dark
              Hc Hk eq_refl eq_refl)
    as (out & Hout & _ & Hnames & _ & HL & _).
  exists out. split; [exact Hout|]. split; [exact Hnames|].
  rewrite HL. reflexivity.
Defined.

(** The June scene through [addNdvi] twice. *)
Lemma addNdvi_twice_witness :
  exists once twice r,
    addNdvi Example.june = Ok once
    /\ addNdvi once = Ok twice
    /\ band_names twice = ["SR_B4"; "SR_B5"; "ST_B10"; "NDVI"; "NDVI_1"]
    /\ bands twice = bands Example.june ++ [("NDVI", r); ("NDVI_1", r)].
Proof.
  pose proof (fun once twice =>
                addNdvi_twice Example.june once twice eq_refl eq_refl) as T.
  edestruct T as [r Hr]; [reflexivity|reflexivity|].
  do 3 eexists. split; [reflexivity|]. split; [reflexivity|].
  split; [reflexivity|exact Hr].
Defined.

(** The June scene at the cell (0, 0): NIR 9000, RED 3000, NDVI 50. *)
Lemma ndvi_range_witness :
  exists out v,
    addNdvi Example.june = Ok out
    /\ sample out "NDVI" 30 (0, 0) = Some v
    /\ (-100 <= v)%Q /\ (v <= 100)%Q /\ (0 < v)%Q.
Proof.
  pose proof (fun out H => ndvi_range Example.june out 30 (0, 0) 9000 3000
                             H eq_refl eq_refl eq_refl) as T.
  edestruct T as (v & Hv & Hlo & Hhi & Hsign); [reflexivity|discriminate|discriminate|].
  do 2 eexists. split; [reflexivity|]. split; [exact Hv|].
  split; [exact Hlo|]. split; [exact Hhi|].
  apply Hsign; reflexivity.
Defined.

(** The June scene and the same scene with NIR and RED exchanged. *)
Lemma ndvi_antisymmetric_witness :
  exists out out',
    addNdvi Example.june = Ok out
    /\ addNdvi Sample.june_swapped = Ok out'
    /\ value_eq (sample out' "NDVI" 30 (0, 0))
                (option_map Qopp (sample out "NDVI" 30 (0, 0))).
Proof.
  pose proof (fun out out' H H' =>
                ndvi_antisymmetric Example.june Sample.june_swapped out out'
                                   30 (0, 0) H H' eq_refl eq_refl eq_refl eq_refl)
    as T.
  do 2 eexists. split; [reflexivity|]. split; [reflexivity|].
  apply T; reflexivity.
Defined.



(** The NDVI composite of the June and dark scenes outside the county. *)
Lemma composite_clipped_witness :
  band_value Example.ndvi_composite "NDVI" 30 (5, 5) = None
  /\ map fst Example.ndvi_composite = ["NDVI"].
Proof.
  assert (Hb : composite Example.area [Example.june; Example.dark] ["NDVI"]
               = Ok Example.ndvi_composite) by reflexivity.
  assert (Hc : landsatCollection Example.area [Example.june; Example.dark]
               = Ok [Example.june'; Example.dark']) by reflexivity.
  destruct (composite_clipped Example.area [Example.june; Example.dark]
              ["NDVI"] Example.ndvi_composite Hb) as [Hout Hnames].
  split; [apply Hout; reflexivity|].
  apply (Hnames [Example.june'; Example.dark'] Hc). discriminate.
Defined.

(** The June and dark scenes have no SR_B3 band: NDVI and LST composites
    are built, the true-colour composite is not. *)
Lemma composites_succeed_witness :
  (exists bs, ndviImage Example.area [Example.june; Example.dark] = Ok bs)
  /\ (exists bs, lstImage Example.area [Example.june; Example.dark] = Ok bs)
  /\ ~ (exists bs, trueColorImage Example.area [Example.june; Example.dark] = Ok bs).
Proof.
  assert (Hc : landsatCollection Example.area [Example.june; Example.dark]
               = Ok [Example.june'; Example.dark']) by reflexivity.
  destruct (composites_succeed Example.area [Example.june; Example.dark]
              [Example.june'; Example.dark'] Hc) as (Hn & Hl & _ & Ht).
  split; [exact Hn|]. split; [exact Hl|].
  intros Hex. pose proof (proj1 Ht Hex) as Hall.
  destruct (Hall Example.june (or_introl eq_refl)) as [H3 _]. now apply H3.
Defined.



(** ** The trend of LST and the range of the correlation *)

Section TrendAndRange.



(** Cauchy-Schwarz for the sums of deviations from two centres. *)
Lemma cross_square_le (m1 m2 : Q) (ps : list (Q * Q)) :
  (EE.Qsum (map (fun p => (fst p - m1) * (snd p - m2)) ps)
   * EE.Qsum (map (fun p => (fst p - m1) * (snd p - m2)) ps)
   <= EE.Qsum (map (fun p => (fst p - m1) * (fst p - m1)) ps)
      * EE.Qsum (map (fun p => (snd p - m2) * (snd p - m2)) ps))%Q.
Proof.
  induction ps as [|[x y] ps IH]; cbn [map EE.Qsum fold_right fst snd].
  - lra.
  - fold (EE.Qsum (map (fun p => (fst p - m1) * (snd p - m2))%Q ps)).
    fold (EE.Qsum (map (fun p => (fst p - m1) * (fst p - m1))%Q ps)).
    fold (EE.Qsum (map (fun p => (snd p - m2) * (snd p - m2))%Q ps)).
    set (S := EE.Qsum (map (fun p => (fst p - m1) * (snd p - m2))%Q ps)) in *.
    set (A := EE.Qsum (map (fun p => (fst p - m1) * (fst p - m1))%Q ps)) in *.
    set (B := EE.Qsum (map (fun p => (snd p - m2) * (snd p - m2))%Q ps)) in *.
    assert (HA : (0 <= A)%Q) by apply squares_nonneg.
    assert (HB : (0 <= B)%Q).
    { pose proof (squares_nonneg m2 (map (fun p => (snd p, snd p)) ps)) as HB.
      rewrite map_map in HB. exact HB. }
    set (a := (x - m1)%Q). set (b := (y - m2)%Q).
    clearbody S A B a b.
    (* 2 S a b <= A b^2 + B a^2 *)
    assert (Hmix : (2 * S * a * b <= A * (b * b) + B * (a * a))%Q).
    { assert (Hsq : ((2 * S * a * b) * (2 * S * a * b)
                     <= (A * (b * b) + B * (a * a)) * (A * (b * b) + B * (a * a)))%Q).
      { assert (H1 : (0 <= (A * (b * b) - B * (a * a)) * (A * (b * b) - B * (a * a)))%Q)
          by apply Qsquare_nonneg.
        assert (H2 : (0 <= (A * B - S * S) * ((a * b) * (a * b)))%Q).
        { apply Qmult_le_0_compat; [lra|apply Qsquare_nonneg]. }
        nra. }
      assert (Hpos : (0 <= A * (b * b) + B * (a * a))%Q).
      { pose proof (Qsquare_nonneg a). pose proof (Qsquare_nonneg b).
        assert (0 <= A * (b * b))%Q by (apply Qmult_le_0_compat; assumption).
        assert (0 <= B * (a * a))%Q by (apply Qmult_le_0_compat; assumption).
        lra. }
      destruct (Qlt_le_dec (A * (b * b) + B * (a * a)) (2 * S * a * b)) as [Hlt|Hle];
        [|exact Hle].
      exfalso. set (u := (2 * S * a * b)%Q) in *.
      set (w := (A * (b * b) + B * (a * a))%Q) in *. clearbody u w. nra. }
    nra.
Qed.

Lemma pearson_range (ps : list (Q * Q)) (r : R) :
  EE.pearson ps = Some r -> (-1 <= r <= 1)%R.
Proof.
  unfold EE.pearson.
  destruct (Nat.ltb (List.length ps) 2); [discriminate|].
  destruct (Qeq_bool (EE.Sxx ps) 0) eqn:Ex; [discriminate|].
  destruct (Qeq_bool (EE.Syy ps) 0) eqn:Ey; [discriminate|].
  cbn [orb]. intros [= <-].
  apply Qeq_bool_neq in Ex, Ey.
  pose proof (dev_square_nonneg fst ps) as Hx0.
  pose proof (dev_square_nonneg snd ps) as Hy0.
  fold (EE.Sxx ps) in Hx0. fold (EE.Syy ps) in Hy0.
  assert (HT : (0 < EE.Sxx ps * EE.Syy ps)%Q).
  { apply Qmult_lt_0_compat.
    - destruct (Qle_lt_or_eq _ _ Hx0) as [Hlt|Heq]; [exact Hlt|].
      exfalso. apply Ex. now symmetry.
    - destruct (Qle_lt_or_eq _ _ Hy0) as [Hlt|Heq]; [exact Hlt|].
      exfalso. apply Ey. now symmetry. }
  pose proof (cross_square_le (EE.mean_Q (map fst ps)) (EE.mean_Q (map snd ps)) ps)
    as Hcs.
  change (EE.Sxy ps * EE.Sxy ps <= EE.Sxx ps * EE.Syy ps)%Q in Hcs.
  apply Qle_Rle in Hcs. rewrite Q2R_mult in Hcs.
  apply Qlt_Rlt in HT. rewrite RMicromega.Q2R_0 in HT.
  set (X := Q2R (EE.Sxy ps)) in *.
  set (T := Q2R (EE.Sxx ps * EE.Syy ps)) in *.
  pose proof (sqrt_lt_R0 _ HT) as Hs.
  pose proof (sqrt_sqrt T (Rlt_le _ _ HT)) as Hss.
  set (s := sqrt T) in *. clearbody X T s.
  assert (Hq : (X / s * s = X)%R) by (field; Lra.lra).
  set (q := (X / s)%R) in *. clearbody q.
  assert (Hq2 : (q * q <= 1)%R).
  { destruct (Rle_lt_dec (q * q) 1) as [Hle|Hgt]; [exact Hle|].
    exfalso.
    assert (Hss0 : (0 < s * s)%R) by (apply Rmult_lt_0_compat; assumption).
    assert (Hlt : (1 * (s * s) < q * q * (s * s))%R)
      by (apply Rmult_lt_compat_r; assumption).
    replace (q * q * (s * s))%R with (X * X)%R in Hlt by (rewrite <- Hq; ring).
    Lra.lra. }
  split; Lra.nra.
Qed.

Context {G : Type} `{Geometry G}.
Variable atlGeom : G.
Variable archive : list (Image G).


(** X20: every value of a correlation chart lies between -1 and 1. *)
Theorem correlation_in_range (region : G) (rows : list (Z * list (string * option R)))
        (t : Z) (row : list (string * option R)) (label : string) (r : R) :
  correlation atlGeom archive region = Ok rows ->
  In (t, row) rows ->
  In (label, Some r) row ->
  (-1 <= r <= 1)%R.
Proof.
  intros Hrows Hrow Hval.
  assert (Hc : exists coll, landsatCollection atlGeom archive = Ok coll).
  { unfold correlation in Hrows.
    destruct (landsatCollection atlGeom archive) as [coll|]; [eauto|discriminate]. }
  destruct Hc as (coll & Hc).
  rewrite (correlation_rows atlGeom archive region coll Hc) in Hrows.
  injection Hrows as <-. apply in_map_iff in Hrow.
  destruct Hrow as (image & [= <- <-] & _).
  destruct Hval as [[= _ Hr]|[]]. now apply pearson_range in Hr.
Qed.

End TrendAndRange.


(** The correlation chart of the June scene: its one value is -1. *)
Lemma correlation_in_range_witness :
  correlation Example.area [Example.june] Example.area
  = Ok [(EE.Date 2015 6 1, [("correlation", Some (-1)%R)])]
  /\ (-1 <= -1 <= 1)%R.
Proof.
  assert (Hc : landsatCollection Example.area [Example.june]
               = Ok [Example.june']) by reflexivity.
  assert (Hrows : correlation Example.area [Example.june] Example.area
                  = Ok [(EE.Date 2015 6 1, [("correlation", Some (-1)%R)])]).
  { rewrite (correlation_rows Example.area [Example.june] Example.area _ Hc).
    cbn [map].
    rewrite (pearson_anticorrelated (50 + 50 / 3.41802 * -21.4594)%Q
                                    (50 / 3.41802)%Q).
    - reflexivity.
    - reflexivity.
    - vm_compute. lia.
    - vm_compute. repeat constructor.
    - intros xy Hin. vm_compute in Hin.
      destruct Hin as [<-|[<-|[<-|[]]]]; vm_compute; reflexivity. }
  split; [exact Hrows|].
  exact (correlation_in_range Example.area [Example.june] Example.area _
           (EE.Date 2015 6 1) _ "correlation" (-1)%R Hrows
           (or_introl eq_refl) (or_introl eq_refl)).
Defined.
